(** * update_version.py: the version model of python-email-sender

    A shallow embedding of [update_version.py]: the suffix ordinal
    ([suffix_key]), the ordering of versions ([get_latest_version]), the
    suffix successor ([increment_suffix]), the version increment
    ([update_version]) and the two in-place file rewrites
    ([update_version_in_setup], [update_version_in_init]).

    Modelling conventions.
    - A Python [str] is a sequence of Unicode code points: a [list Z].
      [ord] is then the identity and [chr] is the range check of the
      interpreter.  String literals of the source are written with [lit].
    - A Python [int] is a [Z]; CPython's configurable limit on the number
      of digits converted between [int] and [str] is not modelled.
    - Exceptions are values of [exn]; a function that may raise returns a
      [result].  Every [ValueError] keeps the text the source gives it.
    - [int] covers the ASCII grammar of the builtin (blanks, sign, digits,
      single underscores between digits).  The builtin also accepts the
      decimal digits and blanks of other scripts; the model rejects them.
    - A file system is a finite map from paths to the text [read()] returns.
    - The three extraction patterns are terms of a small type of regular
      expressions, matched by a backtracking matcher that lists the
      possible matches in the order of the interpreter (greedy
      repetitions, leftmost position first).  The character tests are the
      sets CPython matches under [re.IGNORECASE] on [str].
    - [main] runs in a state of files, input lines and output; [print] and
      [input] append to the output, [input] takes the next line or raises
      [EOFError]. *)

From Stdlib Require Import ZArith Ascii String List DecimalString DecimalPos Lia.
From stdpp Require Import base option list gmap.
Import ListNotations.

Local Open Scope Z_scope.

(** ** Strings and characters *)

Abbreviation str := (list Z).

(** Code point of a character literal of the source (ASCII only). *)
Definition cp (a : ascii) : Z := Z.of_N (N_of_ascii a).

(** A string literal of the source. *)
Definition lit (s : string) : str := map cp (list_ascii_of_string s).

(** ** Exceptions *)

Inductive message : Type :=
| Text (s : string)                    (* the text given at a [raise] of the source *)
| InvalidLiteral (s : str)             (* invalid literal for int() with base 10 *)
| NotEnoughValues (expected got : nat) (* not enough values to unpack *)
| TooManyValues (expected : nat)       (* too many values to unpack *)
| ChrNotInRange.                       (* chr() arg not in range(0x110000) *)

Inductive exn : Type :=
| ValueError (m : message)
| IndexError
| AssertionError (s : string)
| FileNotFoundError (path : str).

Inductive result (A : Type) : Type :=
| Ok (a : A)
| Raise (e : exn).

Arguments Ok {A} a.
Arguments Raise {A} e.

#[global] Instance result_ret : MRet result := fun A a => Ok a.
#[global] Instance result_bind : MBind result := fun A B f m =>
  match m with
  | Ok a => f a
  | Raise e => Raise e
  end.

(** The names the specification gives to the three [ValueError]s the
    source raises itself. *)
Definition EmptyInputError : exn := ValueError (Text "No versions found").
Definition MalformedVersionError : exn :=
  ValueError (Text "current_version must be in the format xx.xx.xx.yy").
Definition NoDirectiveError : exn :=
  ValueError (Text "At least one of major, minor, patch, or commit must be True").

(** ** Builtins *)

(** [chr(n)] *)
Definition chr (n : Z) : result Z :=
  if (0 <=? n) && (n <? 1114112) then Ok n else Raise (ValueError ChrNotInRange).

(** [s.split(sep)] for a separator of one character. *)
Fixpoint split (sep : Z) (s : str) : list str :=
  match s with
  | [] => [[]]
  | c :: s' =>
      if c =? sep then [] :: split sep s'
      else match split sep s' with
           | p :: ps => (c :: p) :: ps
           | [] => [[c]]
           end
  end.

Definition is_space (c : Z) : bool := ((9 <=? c) && (c <=? 13)) || (c =? 32).
Definition is_digit (c : Z) : bool := (cp "0" <=? c) && (c <=? cp "9").
Definition is_lower (c : Z) : bool := (cp "a" <=? c) && (c <=? cp "z").

Fixpoint lstrip (s : str) : str :=
  match s with
  | c :: s' => if is_space c then lstrip s' else s
  | [] => []
  end.

Definition strip (s : str) : str := rev (lstrip (rev (lstrip s))).

(** Digits of a decimal literal, most significant first; an underscore is
    allowed between two digits only. *)
Fixpoint int_digits (acc : Z) (after_digit : bool) (s : str) : option Z :=
  match s with
  | [] => if after_digit then Some acc else None
  | c :: s' =>
      if is_digit c then int_digits (acc * 10 + (c - cp "0")) true s'
      else if (c =? cp "_") && after_digit then int_digits acc false s'
      else None
  end.

(** [int(s)] *)
Definition int (s : str) : result Z :=
  let body := strip s in
  let '(negative, ds) :=
    match body with
    | c :: r => if c =? cp "-" then (true, r)
                else if c =? cp "+" then (false, r)
                else (false, body)
    | [] => (false, [])
    end in
  match int_digits 0 false ds with
  | Some n => Ok (if negative then - n else n)
  | None => Raise (ValueError (InvalidLiteral s))
  end.

(** [map(int, l)], forced from left to right. *)
Fixpoint map_int (l : list str) : result (list Z) :=
  match l with
  | [] => Ok []
  | s :: l' => n ← int s; ns ← map_int l'; Ok (n :: ns)
  end.

(** [a, b, c = map(int, l)] for a list [l] of at most three strings, the
    only lists the slice [parts[:3]] yields. *)
Definition unpack3 (l : list str) : result (Z * Z * Z) :=
  ns ← map_int l;
  match ns with
  | [a; b; c] => Ok (a, b, c)
  | _ => if (length ns <? 3)%nat then Raise (ValueError (NotEnoughValues 3 (length ns)))
         else Raise (ValueError (TooManyValues 3))
  end.

(** [str(n)], as an f-string renders an [int]. *)
Definition str_of_int (n : Z) : str := lit (NilZero.string_of_int (Z.to_int n)).

(** ** The suffix ordinal and the ordering of versions *)

(** [suffix_key], the function nested in [version_key]. *)
Definition suffix_key (suffix : str) : Z :=
  fold_left (fun value char => value * 26 + (char - cp "a" + 1)) suffix 0.

Definition key : Type := Z * Z * Z * Z.

(** [version_key], the function nested in [get_latest_version]. *)
Definition version_key (version : str) : result key :=
  let parts := split (cp ".") version in
  '(major, minor, patch) ← unpack3 (take 3 parts);
  suffix ← (if (length parts =? 3)%nat then Ok (lit "a")
            else match parts !! 3%nat with
                 | Some s => Ok s
                 | None => Raise IndexError
                 end);
  Ok (major, minor, patch, suffix_key suffix).

(** [a > b] on tuples of four integers: the first position at which the
    tuples differ decides. *)
Definition key_gt (a b : key) : bool :=
  let '(a1, a2, a3, a4) := a in
  let '(b1, b2, b3, b4) := b in
  if negb (a1 =? b1) then a1 >? b1
  else if negb (a2 =? b2) then a2 >? b2
  else if negb (a3 =? b3) then a3 >? b3
  else a4 >? b4.

(** The loop of [max(l, key=f)] once a first candidate is held: a later
    element replaces the candidate only when its key is strictly greater. *)
Fixpoint max_from (f : str -> result key) (best : str) (best_key : key)
    (l : list str) : result str :=
  match l with
  | [] => Ok best
  | v :: l' =>
      k ← f v;
      if key_gt k best_key then max_from f v k l' else max_from f best best_key l'
  end.

(** [max(l, key=f)] *)
Definition max_by (f : str -> result key) (l : list str) : result str :=
  match l with
  | [] => Raise (ValueError (Text "max() arg is an empty sequence"))
  | v :: l' => k ← f v; max_from f v k l'
  end.

Definition get_latest_version (versions : list str) : result str :=
  match versions with
  | [] => Raise (ValueError (Text "No versions found"))
  | _ => max_by version_key versions
  end.

(** ** The suffix successor *)

(** The [while i >= 0] loop of [increment_suffix], with [n = i + 1]; the
    [else] of the loop is the case [n = 0]. *)
Fixpoint increment_loop (n : nat) (suffix_list : str) : result str :=
  match n with
  | O => Ok (cp "a" :: suffix_list)
  | S i =>
      match suffix_list !! i with
      | None => Raise IndexError
      | Some c =>
          if c =? cp "z" then increment_loop i (<[i := cp "a"]> suffix_list)
          else c' ← chr (c + 1); Ok (<[i := c']> suffix_list)
      end
  end.

Definition increment_suffix (suffix : str) : result str :=
  match suffix with
  | [] => Ok (lit "a")
  | _ => increment_loop (length suffix) suffix
  end.

(** ** The version increment *)

(** The rendering [f"{major_ver}.{minor_ver}.{patch_ver}.{suffix}"]. *)
Definition format_version (major_ver minor_ver patch_ver : Z) (suffix : str) : str :=
  str_of_int major_ver ++ lit "." ++ str_of_int minor_ver ++ lit "."
    ++ str_of_int patch_ver ++ lit "." ++ suffix.

(** Lines 101-109: the split, the default suffix, the length check and
    the conversion of the three numeric fields. *)
Definition parse_version (current_version : str) : result (Z * Z * Z * str) :=
  let parts := split (cp ".") current_version in
  let parts := if (length parts =? 3)%nat then parts ++ [lit "a"] else parts in
  if negb (length parts =? 4)%nat then
    Raise (ValueError (Text "current_version must be in the format xx.xx.xx.yy"))
  else
    '(major_ver, minor_ver, patch_ver) ← unpack3 (take 3 parts);
    match parts !! 3%nat with
    | Some suffix => Ok (major_ver, minor_ver, patch_ver, suffix)
    | None => Raise IndexError
    end.

(** Lines 112-120: the [if major / elif minor / elif patch] chain. *)
Definition bump (major minor patch : bool) (v : Z * Z * Z) : Z * Z * Z :=
  let '(major_ver, minor_ver, patch_ver) := v in
  if major then (major_ver + 1, 0, 0)
  else if minor then (major_ver, minor_ver + 1, 0)
  else if patch then (major_ver, minor_ver, patch_ver + 1)
  else (major_ver, minor_ver, patch_ver).

(** Lines 122-128: the [if commit / else raise] and the rendering. *)
Definition finish (commit : bool) (v : Z * Z * Z) (suffix : str) : result str :=
  let '(major_ver, minor_ver, patch_ver) := v in
  suffix ← (if commit then increment_suffix suffix
            else Raise (ValueError
              (Text "At least one of major, minor, patch, or commit must be True")));
  Ok (format_version major_ver minor_ver patch_ver suffix).

Definition update_version (current_version : str)
    (major minor patch commit : bool) : result str :=
  '(major_ver, minor_ver, patch_ver, suffix) ← parse_version current_version;
  finish commit (bump major minor patch (major_ver, minor_ver, patch_ver)) suffix.

(** ** The file rewrites *)

(** [s.startswith(p)] *)
Fixpoint starts_with (p s : str) : bool :=
  match p, s with
  | [], _ => true
  | a :: p', b :: s' => (a =? b) && starts_with p' s'
  | _ :: _, [] => false
  end.

(** [s.replace(old, new)] for a non-empty [old]: the text is scanned from
    the left, an occurrence of [old] is replaced and the scan resumes
    after it ([skip] counts the characters of that occurrence still to
    pass over). *)
Fixpoint replace_scan (old new : str) (skip : nat) (s : str) : str :=
  match s with
  | [] => []
  | c :: s' =>
      match skip with
      | S k => replace_scan old new k s'
      | O =>
          if starts_with old s
          then new ++ replace_scan old new (length old - 1) s'
          else c :: replace_scan old new 0 s'
      end
  end.

(** [s.replace(old, new)]; an empty [old] matches before every character
    and at the end. *)
Definition replace (old new s : str) : str :=
  match old with
  | [] => new ++ flat_map (fun c => c :: new) s
  | _ => replace_scan old new 0 s
  end.

(** The files: path to text. *)
Abbreviation files := (gmap str str).

(** [open(path, "r")] followed by [read()]. *)
Definition read_file (path : str) (fs : files) : result str :=
  match fs !! path with
  | Some content => Ok content
  | None => Raise (FileNotFoundError path)
  end.

(** [open(path, "w")] followed by [write(content)]. *)
Definition write_file (path content : str) (fs : files) : files :=
  <[path := content]> fs.

(** An argument inside an f-string; [None] renders as its name. *)
Definition fmt (v : option str) : str :=
  match v with
  | Some s => s
  | None => lit "None"
  end.

Definition setup_literal (version : option str) : str :=
  lit "version='" ++ fmt version ++ lit "'".

Definition init_literal (version : option str) : str :=
  lit "__version__ = '" ++ fmt version ++ lit "'".

Definition update_version_in_setup (setup_path : str)
    (old_version new_version : option str) (fs : files) : result files :=
  if negb (bool_decide (is_Some old_version)) then
    Raise (AssertionError "old_version must be provided")
  else if negb (bool_decide (is_Some new_version)) then
    Raise (AssertionError "new_version must be provided")
  else
    content ← read_file setup_path fs;
    let content := replace (setup_literal old_version) (setup_literal new_version) content in
    Ok (write_file setup_path content fs).

Definition update_version_in_init (init_path : str)
    (old_version new_version : option str) (fs : files) : result files :=
  if negb (bool_decide (is_Some new_version)) then
    Raise (AssertionError "new_version must be provided")
  else
    content ← read_file init_path fs;
    let content := replace (init_literal old_version) (init_literal new_version) content in
    Ok (write_file init_path content fs).

(** ** Well-formed versions *)

(** A non-empty run of ASCII digits. *)
Definition numeric (s : str) : bool :=
  negb (bool_decide (s = [])) && forallb is_digit s.

(** A non-empty run of lowercase letters. *)
Definition lowercase (s : str) : bool :=
  negb (bool_decide (s = [])) && forallb is_lower s.

(** [N.N.N] or [N.N.N.s] with a lowercase suffix [s]. *)
Definition well_formed (version : str) : bool :=
  match split (cp ".") version with
  | [a; b; c] => numeric a && numeric b && numeric c
  | [a; b; c; s] => numeric a && numeric b && numeric c && lowercase s
  | _ => false
  end.

(** ** Reference definitions, written from the specification *)

(** Value of a run of decimal digits as a positional numeral. *)
Fixpoint decimal (s : str) : Z :=
  match s with
  | [] => 0
  | c :: s' => (c - cp "0") * 10 ^ Z.of_nat (length s') + decimal s'
  end.

(** Value of a suffix as a bijective base-26 numeral with the digits
    'a' = 1, ..., 'z' = 26. *)
Fixpoint ordinal (s : str) : Z :=
  match s with
  | [] => 0
  | c :: s' => (c - cp "a" + 1) * 26 ^ Z.of_nat (length s') + ordinal s'
  end.

(** The tuple [(major, minor, patch, suffix_ordinal)] of a version, a
    version without suffix counting as suffix "a". *)
Definition ordering_tuple (version : str) : key :=
  match split (cp ".") version with
  | [a; b; c] => (decimal a, decimal b, decimal c, ordinal (lit "a"))
  | [a; b; c; s] => (decimal a, decimal b, decimal c, ordinal s)
  | _ => (0, 0, 0, 0)
  end.

(** Lexicographic order on the tuples. *)
Definition lex_le (a b : key) : Prop :=
  let '(a1, a2, a3, a4) := a in
  let '(b1, b2, b3, b4) := b in
  a1 < b1 \/ (a1 = b1 /\ (a2 < b2 \/ (a2 = b2 /\ (a3 < b3 \/ (a3 = b3 /\ a4 <= b4))))).

(** [pattern] occurs in [s] at offset [i]. *)
Definition occurs_at (pattern s : str) (i : nat) : Prop :=
  exists post, drop i s = pattern ++ post.

(** [pattern] occurs somewhere in [s]. *)
Definition occurs (pattern s : str) : Prop :=
  exists i, occurs_at pattern s i.

(** [r] is [s] with the occurrences of [old], taken from the left and
    without overlap, turned into [new], and every other character kept. *)
Inductive replaced (old new : str) : str -> str -> Prop :=
| replaced_absent (s : str) :
    ~ occurs old s -> replaced old new s s
| replaced_first (pre post r : str) :
    (forall i, (i < length pre)%nat -> ~ occurs_at old (pre ++ old ++ post) i) ->
    replaced old new post r ->
    replaced old new (pre ++ old ++ post) (pre ++ new ++ r).

(** An exception that is none of the [ValueError]s with a text of the
    source. *)
Definition from_builtin (e : exn) : Prop :=
  match e with
  | ValueError (Text _) => False
  | _ => True
  end.

(** ** The extraction patterns *)

(** The fragment of regular expressions the three patterns use.  A
    character test stands for a literal, a class or an escape, as the
    interpreter reads it under [re.IGNORECASE] on [str]. *)
Inductive regex : Type :=
| Char (p : Z -> bool)     (* one character *)
| Seq (r1 r2 : regex)      (* r1 r2 *)
| Plus (p : Z -> bool)     (* [...]+ , greedy *)
| Star (p : Z -> bool)     (* [...]* , greedy *)
| Opt (r : regex).         (* (?:r)? , greedy *)

(** The texts left after a greedy run of characters passing [p], the
    longest run first. *)
Fixpoint many (p : Z -> bool) (s : str) : list str :=
  match s with
  | c :: s' => if p c then many p s' ++ [s] else [s]
  | [] => [[]]
  end.

(** The texts left after a match of [r] at the head of [s], in the order
    in which the backtracking matcher tries them. *)
Fixpoint matches (r : regex) (s : str) : list str :=
  match r with
  | Char p => match s with
              | c :: s' => if p c then [s'] else []
              | [] => []
              end
  | Seq r1 r2 => flat_map (matches r2) (matches r1 s)
  | Plus p => match s with
              | c :: s' => if p c then many p s' else []
              | [] => []
              end
  | Star p => many p s
  | Opt r' => matches r' s ++ [s]
  end.

(** [pre(body)post] matched at the head of [s]: the text of the group of
    the first match found. *)
Definition match_group (pre body post : regex) (s : str) : option str :=
  hd_error
    (flat_map (fun r1 =>
       flat_map (fun r2 =>
         map (fun _ => take (length r1 - length r2) r1) (matches post r2))
         (matches body r1))
       (matches pre s)).

(** [re.search] followed by [group(1)]: the match at the leftmost
    position wins. *)
Fixpoint search (pre body post : regex) (s : str) : option str :=
  match match_group pre body post s with
  | Some g => Some g
  | None => match s with
            | [] => None
            | _ :: s' => search pre body post s'
            end
  end.

Definition is_upper (c : Z) : bool := (cp "A" <=? c) && (c <=? cp "Z").

(** A literal ASCII character under [re.IGNORECASE]: both cases of a
    letter, and the characters that fold to it (U+0130 and U+0131 for i,
    U+017F for s, U+212A for k). *)
Definition ci (a : ascii) (x : Z) : bool :=
  let c := cp a in
  (x =? c)
  || (is_lower c && (x =? c - 32))
  || (is_upper c && (x =? c + 32))
  || (((c =? cp "i") || (c =? cp "I")) && ((x =? 304) || (x =? 305)))
  || (((c =? cp "s") || (c =? cp "S")) && (x =? 383))
  || (((c =? cp "k") || (c =? cp "K")) && (x =? 8490)).

(** [[a-zA-Z]] under [re.IGNORECASE]. *)
Definition letter_class (x : Z) : bool :=
  is_lower x || is_upper x || (x =? 304) || (x =? 305) || (x =? 383) || (x =? 8490).

(** The class of the two quote characters. *)
Definition quote_class (x : Z) : bool := (x =? 39) || (x =? 34).

(** [\s] on [str]. *)
Definition space_class (x : Z) : bool :=
  ((9 <=? x) && (x <=? 13)) || ((28 <=? x) && (x <=? 32))
  || (x =? 133) || (x =? 160) || (x =? 5760)
  || ((8192 <=? x) && (x <=? 8202))
  || (x =? 8232) || (x =? 8233) || (x =? 8239) || (x =? 8287) || (x =? 12288).

(** A run of literal characters followed by [k]. *)
Definition literal (s : string) (k : regex) : regex :=
  fold_right (fun a r => Seq (Char (ci a)) r) k (list_ascii_of_string s).

(** [[0-9]+\.[0-9]+\.[0-9]+(?:\.[a-zA-Z]+)?], the group of the patterns. *)
Definition version_group : regex :=
  Seq (Plus is_digit) (Seq (Char (ci "."))
    (Seq (Plus is_digit) (Seq (Char (ci "."))
      (Seq (Plus is_digit) (Opt (Seq (Char (ci ".")) (Plus letter_class))))))).

(** [version=] and a quote: the part of the first two patterns before
    the group. *)
Definition version_eq : regex := literal "version=" (Char quote_class).

(** [__version__\s*=\s*] and a quote: the part of the third pattern
    before the group. *)
Definition dunder_version_eq : regex :=
  literal "__version__"
    (Seq (Star space_class) (Seq (Char (ci "=")) (Seq (Star space_class) (Char quote_class)))).

Definition extract_version_from_setup (setup_path : str) (fs : files) : result str :=
  content ← read_file setup_path fs;
  match search version_eq version_group (Char quote_class) content with
  | Some version => Ok version
  | None => Raise (ValueError (Text "Version not found in setup.py"))
  end.

Definition extract_version_from_readme (readme_path : str) (fs : files) : result str :=
  content ← read_file readme_path fs;
  match search version_eq version_group (Char quote_class) content with
  | Some version => Ok version
  | None => Raise (ValueError (Text "Version not found in README.md"))
  end.

Definition extract_version_from_init (init_path : str) (fs : files) : result str :=
  content ← read_file init_path fs;
  match search dunder_version_eq version_group (Char quote_class) content with
  | Some version => Ok version
  | None => Raise (ValueError (Text "Version not found in __init__.py"))
  end.

(** ** The program *)

(** What [main] works on: the files, the lines still to be read from the
    standard input, and what was written to the standard output. *)
Record world : Type := World {
  disk : files;
  stdin : list str;
  stdout : list str
}.

(** [input] raises [EOFError] when the input is exhausted; every other
    exception of the program is an [exn]. *)
Inductive failure : Type :=
| Raised (e : exn)
| EOFError.

Inductive outcome (A : Type) : Type :=
| Done (a : A)
| Failed (f : failure).

Arguments Done {A} a.
Arguments Failed {A} f.

Definition prog (A : Type) : Type := world -> outcome A * world.

#[global] Instance prog_ret : MRet prog := fun A a w => (Done a, w).
#[global] Instance prog_bind : MBind prog := fun A B f m w =>
  match m w with
  | (Done a, w') => f a w'
  | (Failed e, w') => (Failed e, w')
  end.

(** A call that neither reads nor writes. *)
Definition call {A : Type} (r : result A) : prog A := fun w =>
  match r with
  | Ok a => (Done a, w)
  | Raise e => (Failed (Raised e), w)
  end.

(** A call that reads the files. *)
Definition reading {A : Type} (f : files -> result A) : prog A := fun w =>
  call (f (disk w)) w.

(** A call that rewrites the files. *)
Definition writing (f : files -> result files) : prog unit := fun w =>
  match f (disk w) with
  | Ok fs => (Done tt, World fs (stdin w) (stdout w))
  | Raise e => (Failed (Raised e), w)
  end.

(** [print(text)] *)
Definition print (text : str) : prog unit := fun w =>
  (Done tt, World (disk w) (stdin w) (stdout w ++ [text ++ [10]])).

(** [input(prompt)]: the prompt is written, a line is read. *)
Definition input (prompt : str) : prog str := fun w =>
  match stdin w with
  | line :: rest => (Done line, World (disk w) rest (stdout w ++ [prompt]))
  | [] => (Failed EOFError, World (disk w) [] (stdout w ++ [prompt]))
  end.

(** [answer.lower() == "y"]: no character disappears in [lower()] and only
    y and Y are turned into y. *)
Definition lower_is_y (answer : str) : bool :=
  bool_decide (answer = [cp "y"]) || bool_decide (answer = [cp "Y"]).

Definition compare_versions (setup_version init_version : str) : prog unit :=
  if bool_decide (setup_version = init_version) then
    print (lit "All versions are the same")
  else
    (print (lit "Versions are different");;
     print (lit "setup.py: " ++ setup_version);;
     print (lit "__init__.py: " ++ init_version)).

Definition main : prog unit :=
  let setup_path := lit "setup.py" in
  let init_path := lit "python_email_sender/__init__.py" in
  setup_version ← reading (extract_version_from_setup setup_path);
  init_version ← reading (extract_version_from_init init_path);
  compare_versions setup_version init_version;;
  latest_version ← call (get_latest_version [setup_version; init_version]);
  print (lit "Latest version: " ++ latest_version);;
  major ← input (lit "Increment major version? (if not compatible with the previous version) (y/n): ");
  minor ← input (lit "Increment minor version? (if you add functionality in a backwards-compatible manner) (y/n): ");
  patch ← input (lit "Increment patch version? (if you make backwards-compatible bug fixes) (y/n): ");
  commit ← input (lit "Increment commit version? (if you commit changes without changing the functionality) (y/n): ");
  new_version ← call (update_version latest_version (lower_is_y major)
                        (lower_is_y minor) (lower_is_y patch) (lower_is_y commit));
  print (lit "New version: " ++ new_version);;
  writing (update_version_in_setup setup_path (Some latest_version) (Some new_version));;
  writing (update_version_in_init init_path (Some latest_version) (Some new_version)).

(** ** Further reference definitions *)

(** The words a pattern describes. *)
Inductive lang : regex -> str -> Prop :=
| lang_Char p c : p c = true -> lang (Char p) [c]
| lang_Seq r1 r2 u v : lang r1 u -> lang r2 v -> lang (Seq r1 r2) (u ++ v)
| lang_Plus p u : u <> [] -> forallb p u = true -> lang (Plus p) u
| lang_Star p u : forallb p u = true -> lang (Star p) u
| lang_Opt_some r u : lang r u -> lang (Opt r) u
| lang_Opt_none r : lang (Opt r) [].

(** A run of letters as the patterns accept them. *)
Definition letters (s : str) : bool :=
  negb (bool_decide (s = [])) && forallb letter_class s.

(** [N.N.N] or [N.N.N.s] with a run of letters [s]: the texts the group
    of the patterns describes. *)
Definition version_text (version : str) : bool :=
  match split (cp ".") version with
  | [a; b; c] => numeric a && numeric b && numeric c
  | [a; b; c; s] => numeric a && numeric b && numeric c && letters s
  | _ => false
  end.

(** * Proofs *)

Ltac cp_norm :=
  repeat match goal with
    | |- context [cp ?a] =>
        let v := eval vm_compute in (cp a) in change (cp a) with v
    | H : context [cp ?a] |- _ =>
        let v := eval vm_compute in (cp a) in change (cp a) with v in H
    end.

(** ** The exception monad *)

Lemma bind_Ok {A B} (f : A -> result B) (a : A) : (Ok a ≫= f) = f a.
Proof. reflexivity. Qed.

Lemma bind_Raise {A B} (f : A -> result B) (e : exn) : (Raise e ≫= f) = Raise e.
Proof. reflexivity. Qed.

Lemma bind_inv_Ok {A B} (f : A -> result B) (m : result A) (b : B) :
  (m ≫= f) = Ok b -> exists a, m = Ok a /\ f a = Ok b.
Proof. destruct m as [a|e]; intros H; [eauto | discriminate]. Qed.

Lemma bind_inv_Raise {A B} (f : A -> result B) (m : result A) (e : exn) :
  (m ≫= f) = Raise e -> m = Raise e \/ exists a, m = Ok a /\ f a = Raise e.
Proof.
  destruct m as [a|e']; intros H; [right; eauto | left].
  simpl in H. injection H as ->. reflexivity.
Qed.

(** ** [int] on runs of digits *)

Lemma is_digit_spec c : is_digit c = true <-> 48 <= c <= 57.
Proof. unfold is_digit. cp_norm. lia. Qed.

Lemma is_lower_spec c : is_lower c = true <-> 97 <= c <= 122.
Proof. unfold is_lower. cp_norm. lia. Qed.

Lemma digit_not_space c : is_digit c = true -> is_space c = false.
Proof. rewrite is_digit_spec. unfold is_space. lia. Qed.

Lemma lstrip_id s : Forall (fun c => is_space c = false) s -> lstrip s = s.
Proof. destruct 1 as [|c s' Hc _]; simpl in *; [reflexivity | now rewrite Hc]. Qed.

Lemma strip_id s : Forall (fun c => is_space c = false) s -> strip s = s.
Proof.
  intros H. unfold strip. rewrite (lstrip_id s H).
  rewrite lstrip_id; [apply rev_involutive |].
  now apply List.Forall_rev.
Qed.

Lemma int_digits_decimal s : forall acc b,
  forallb is_digit s = true -> s <> [] \/ b = true ->
  int_digits acc b s = Some (acc * 10 ^ Z.of_nat (length s) + decimal s).
Proof.
  induction s as [|c s IH]; intros acc b Hd Hne.
  - destruct Hne as [Hne | ->]; [congruence |]. simpl. f_equal. lia.
  - simpl in Hd. apply andb_prop in Hd as [Hc Hs].
    simpl int_digits. rewrite Hc. rewrite IH by auto.
    f_equal. simpl decimal. simpl length.
    rewrite Nat2Z.inj_succ, Z.pow_succ_r by lia. ring.
Qed.

Lemma numeric_spec s :
  numeric s = true <-> s <> [] /\ forallb is_digit s = true.
Proof.
  unfold numeric. rewrite andb_true_iff, negb_true_iff, bool_decide_eq_false.
  reflexivity.
Qed.

Lemma int_numeric s : numeric s = true -> int s = Ok (decimal s).
Proof.
  rewrite numeric_spec. intros [Hne Hd]. unfold int.
  rewrite strip_id.
  2:{ apply List.Forall_forall. intros c Hc. apply digit_not_space.
      rewrite List.forallb_forall in Hd. now apply Hd. }
  destruct s as [|c r]; [congruence |].
  assert (Hc : is_digit c = true) by (simpl in Hd; now apply andb_prop in Hd).
  apply is_digit_spec in Hc.
  cp_norm.
  destruct (c =? 45) eqn:E1; [lia |]. destruct (c =? 43) eqn:E2; [lia |].
  rewrite (int_digits_decimal (c :: r) 0 false Hd) by (left; discriminate).
  f_equal.
Qed.

Lemma decimal_nonneg s : forallb is_digit s = true -> 0 <= decimal s.
Proof.
  induction s as [|c s IH]; simpl; intros H; [lia |].
  apply andb_prop in H as [Hc Hs]. apply is_digit_spec in Hc. cp_norm.
  specialize (IH Hs). assert (0 <= 10 ^ Z.of_nat (length s)) by (apply Z.pow_nonneg; lia).
  nia.
Qed.

(** ** The suffix ordinal is the positional value *)

Lemma suffix_fold_ordinal s : forall acc,
  fold_left (fun value char => value * 26 + (char - cp "a" + 1)) s acc
  = acc * 26 ^ Z.of_nat (length s) + ordinal s.
Proof.
  induction s as [|c s IH]; intros acc; simpl fold_left.
  - simpl. lia.
  - rewrite IH. simpl ordinal. simpl length.
    rewrite Nat2Z.inj_succ, Z.pow_succ_r by lia. ring.
Qed.

Lemma suffix_key_ordinal s : suffix_key s = ordinal s.
Proof. unfold suffix_key. rewrite suffix_fold_ordinal. lia. Qed.

Lemma suffix_key_snoc s c : suffix_key (s ++ [c]) = suffix_key s * 26 + (c - 96).
Proof. unfold suffix_key. rewrite fold_left_app. simpl. cp_norm. lia. Qed.

(** ** Well-formed versions are parsed *)

Lemma well_formed_inv v :
  well_formed v = true ->
  (exists a b c, split (cp ".") v = [a; b; c]
     /\ numeric a = true /\ numeric b = true /\ numeric c = true)
  \/ (exists a b c s, split (cp ".") v = [a; b; c; s]
     /\ numeric a = true /\ numeric b = true /\ numeric c = true
     /\ lowercase s = true).
Proof.
  unfold well_formed.
  destruct (split (cp ".") v) as [|a [|b [|c [|s [|x r]]]]]; try discriminate.
  - intros H. apply andb_prop in H as [H Hc]. apply andb_prop in H as [Ha Hb].
    left. eauto 10.
  - intros H. apply andb_prop in H as [H Hs]. apply andb_prop in H as [H Hc].
    apply andb_prop in H as [Ha Hb]. right. eauto 10.
Qed.

Lemma unpack3_numeric a b c :
  numeric a = true -> numeric b = true -> numeric c = true ->
  unpack3 [a; b; c] = Ok (decimal a, decimal b, decimal c).
Proof.
  intros Ha Hb Hc. unfold unpack3. simpl map_int.
  rewrite (int_numeric a Ha), (int_numeric b Hb), (int_numeric c Hc).
  reflexivity.
Qed.

Lemma version_key_well_formed v :
  well_formed v = true -> version_key v = Ok (ordering_tuple v).
Proof.
  intros H. unfold version_key, ordering_tuple.
  destruct (well_formed_inv v H) as [(a & b & c & -> & Ha & Hb & Hc)
                                    |(a & b & c & s & -> & Ha & Hb & Hc & Hs)].
  - simpl take. rewrite unpack3_numeric by assumption. simpl.
    now rewrite suffix_key_ordinal.
  - simpl take. rewrite unpack3_numeric by assumption. simpl.
    now rewrite suffix_key_ordinal.
Qed.

(** ** Comparison of keys *)

Lemma key_gt_false a b : key_gt a b = false <-> lex_le a b.
Proof.
  destruct a as [[[a1 a2] a3] a4], b as [[[b1 b2] b3] b4].
  unfold key_gt, lex_le.
  destruct (a1 =? b1) eqn:E1; simpl;
    [destruct (a2 =? b2) eqn:E2; simpl;
       [destruct (a3 =? b3) eqn:E3; simpl |] |]; lia.
Qed.

Lemma key_gt_true a b : key_gt a b = true -> lex_le b a.
Proof.
  destruct a as [[[a1 a2] a3] a4], b as [[[b1 b2] b3] b4].
  unfold key_gt, lex_le.
  destruct (a1 =? b1) eqn:E1; simpl;
    [destruct (a2 =? b2) eqn:E2; simpl;
       [destruct (a3 =? b3) eqn:E3; simpl |] |]; lia.
Qed.

Lemma lex_le_refl a : lex_le a a.
Proof. destruct a as [[[a1 a2] a3] a4]. unfold lex_le. lia. Qed.

Lemma lex_le_trans a b c : lex_le a b -> lex_le b c -> lex_le a c.
Proof.
  destruct a as [[[a1 a2] a3] a4], b as [[[b1 b2] b3] b4], c as [[[c1 c2] c3] c4].
  unfold lex_le. lia.
Qed.

(** ** The loop of [max] *)

Section max_by.
Variable f : str -> result key.

(** When every key can be computed, the loop returns an element whose
    key is at least the key of the candidate and of every later
    element. *)
Lemma max_from_spec l : forall best best_key,
  f best = Ok best_key ->
  Forall (fun v => exists k, f v = Ok k) l ->
  exists r kr, max_from f best best_key l = Ok r /\ In r (best :: l)
    /\ f r = Ok kr /\ lex_le best_key kr
    /\ forall v, In v l -> exists kv, f v = Ok kv /\ lex_le kv kr.
Proof.
  induction l as [|v l IH]; intros best bk Hb Hall.
  - exists best, bk. simpl. repeat split; auto using lex_le_refl.
    intros v [].
  - apply List.Forall_cons_iff in Hall as [[k Hk] Hall].
    simpl max_from. rewrite Hk, bind_Ok.
    destruct (key_gt k bk) eqn:Hgt.
    + destruct (IH v k Hk Hall) as (r & kr & Hr & Hin & Hfr & Hle & Hmax).
      exists r, kr. repeat split; auto.
      * simpl in *. tauto.
      * eapply lex_le_trans; [apply key_gt_true; eassumption | assumption].
      * intros w [<- | Hw]; [eauto | auto].
    + destruct (IH best bk Hb Hall) as (r & kr & Hr & Hin & Hfr & Hle & Hmax).
      exists r, kr. repeat split; auto.
      * simpl in *. tauto.
      * intros w [<- | Hw]; [| auto].
        exists k. split; [assumption |].
        eapply lex_le_trans; [apply key_gt_false; eassumption | assumption].
Qed.

(** Whatever the loop returns was in its hands. *)
Lemma max_from_In l : forall best best_key r,
  max_from f best best_key l = Ok r -> In r (best :: l).
Proof.
  induction l as [|v l IH]; intros best bk r H; simpl in H.
  - injection H as ->. now left.
  - apply bind_inv_Ok in H as (k & Hk & H).
    destruct (key_gt k bk); apply IH in H; simpl in *; tauto.
Qed.

(** An exception out of the loop comes from the key function. *)
Lemma max_from_Raise l : forall best best_key e,
  max_from f best best_key l = Raise e -> exists v, In v l /\ f v = Raise e.
Proof.
  induction l as [|v l IH]; intros best bk e H; simpl in H; [discriminate |].
  apply bind_inv_Raise in H as [H | (k & Hk & H)].
  - exists v. split; [now left | assumption].
  - destruct (key_gt k bk); apply IH in H as (w & Hw & Hf);
      exists w; (split; [now right | assumption]).
Qed.
End max_by.

(** ** The loop of [increment_suffix] *)

Lemma insert_middle (pre post : str) (c x : Z) :
  <[length pre := x]> (pre ++ c :: post) = pre ++ x :: post.
Proof.
  rewrite insert_app_r_alt by lia. now rewrite Nat.sub_diag.
Qed.

(** With the first [length pre] characters still to visit and [post]
    already rewritten, the loop replaces [pre] by its successor and
    leaves [post] alone. *)
Lemma increment_loop_spec (pre : str) : forall post : str,
  forallb is_lower pre = true ->
  exists r, increment_loop (length pre) (pre ++ post) = Ok (r ++ post)
    /\ suffix_key r = suffix_key pre + 1
    /\ forallb is_lower r = true /\ r <> [].
Proof.
  induction pre as [|c p IH] using rev_ind; intros post Hlow.
  - exists [cp "a"]. repeat split; try reflexivity. discriminate.
  - rewrite forallb_app in Hlow. apply andb_prop in Hlow as [Hp Hc].
    simpl in Hc. rewrite andb_true_r in Hc.
    rewrite length_app, Nat.add_1_r. simpl increment_loop.
    rewrite <- app_assoc. simpl app.
    rewrite (list_lookup_middle p post c (length p) eq_refl).
    rewrite insert_middle.
    destruct (c =? cp "z") eqn:Hz.
    + destruct (IH (cp "a" :: post) Hp) as (r & Hr & Hkey & Hrl & _).
      exists (r ++ [cp "a"]). rewrite <- app_assoc. simpl app.
      split; [exact Hr |]. split; [| split].
      * rewrite !suffix_key_snoc, Hkey. cp_norm. lia.
      * rewrite forallb_app, Hrl. reflexivity.
      * destruct r; discriminate.
    + apply is_lower_spec in Hc. cp_norm.
      assert (Hchr : chr (c + 1) = Ok (c + 1)).
      { unfold chr. destruct ((0 <=? c + 1) && (c + 1 <? 1114112)) eqn:E; [reflexivity | lia]. }
      rewrite Hchr, bind_Ok, insert_middle.
      exists (p ++ [c + 1]). rewrite <- app_assoc. simpl app.
      split; [reflexivity |]. split; [| split].
      * rewrite !suffix_key_snoc. lia.
      * rewrite forallb_app, Hp. simpl. rewrite andb_true_r.
        apply is_lower_spec. lia.
      * destruct p; discriminate.
Qed.

Lemma increment_suffix_spec (s : str) :
  forallb is_lower s = true ->
  exists r, increment_suffix s = Ok r /\ suffix_key r = suffix_key s + 1
    /\ lowercase r = true.
Proof.
  intros Hlow. destruct s as [|c s].
  - exists (lit "a"). repeat split; reflexivity.
  - destruct (increment_loop_spec (c :: s) [] Hlow) as (r & Hr & Hkey & Hrl & Hne).
    rewrite !app_nil_r in Hr. exists r. unfold increment_suffix.
    split; [exact Hr |]. split; [exact Hkey |].
    unfold lowercase. rewrite Hrl, andb_true_r.
    apply negb_true_iff, bool_decide_eq_false. exact Hne.
Qed.

(** ** Where exceptions come from *)

Lemma int_Raise s e : int s = Raise e -> from_builtin e.
Proof.
  unfold int. destruct (strip s) as [|c r].
  - destruct (int_digits 0 false []); intros H; [discriminate |].
    injection H as <-. exact I.
  - destruct (c =? cp "-"); [| destruct (c =? cp "+")];
      match goal with |- context [int_digits ?a ?b ?l] =>
        destruct (int_digits a b l) end;
      intros H; try discriminate; injection H as <-; exact I.
Qed.

Lemma map_int_Raise l e : map_int l = Raise e -> from_builtin e.
Proof.
  induction l as [|s l IH]; simpl; intros H; [discriminate |].
  apply bind_inv_Raise in H as [H | (n & _ & H)]; [eauto using int_Raise |].
  apply bind_inv_Raise in H as [H | (ns & _ & H)]; [auto | discriminate].
Qed.

Lemma unpack3_Raise l e : unpack3 l = Raise e -> from_builtin e.
Proof.
  unfold unpack3. intros H.
  apply bind_inv_Raise in H as [H | (ns & _ & H)]; [eauto using map_int_Raise |].
  destruct ns as [|a [|b [|c [|d r]]]]; simpl in H; try discriminate;
    injection H as <-; exact I.
Qed.

Lemma version_key_Raise v e : version_key v = Raise e -> from_builtin e.
Proof.
  unfold version_key. intros H.
  apply bind_inv_Raise in H as [H | ([[a b] c] & _ & H)]; [eauto using unpack3_Raise |].
  apply bind_inv_Raise in H as [H | (s & _ & H)]; [| discriminate].
  destruct (length (split (cp ".") v) =? 3)%nat; [discriminate |].
  destruct (split (cp ".") v !! 3%nat); [discriminate |].
  injection H as <-. exact I.
Qed.

Lemma increment_loop_Raise n : forall l e,
  increment_loop n l = Raise e -> from_builtin e.
Proof.
  induction n as [|i IH]; intros l e; simpl; [discriminate |].
  destruct (l !! i) as [c|]; [| intros H; injection H as <-; exact I].
  destruct (c =? cp "z"); [apply IH |].
  unfold chr. destruct ((0 <=? c + 1) && (c + 1 <? 1114112)); simpl;
    intros H; [discriminate | injection H as <-; exact I].
Qed.

Lemma increment_suffix_Raise s e : increment_suffix s = Raise e -> from_builtin e.
Proof.
  destruct s; unfold increment_suffix; [discriminate | apply increment_loop_Raise].
Qed.

(** ** [parse_version] *)

Lemma parse_version_malformed v :
  length (split (cp ".") v) <> 3%nat -> length (split (cp ".") v) <> 4%nat ->
  parse_version v = Raise MalformedVersionError.
Proof.
  intros H3 H4. unfold parse_version.
  destruct (length (split (cp ".") v) =? 3)%nat eqn:E3; [apply Nat.eqb_eq in E3; lia |].
  destruct (length (split (cp ".") v) =? 4)%nat eqn:E4; [apply Nat.eqb_eq in E4; lia |].
  reflexivity.
Qed.

Lemma parse_version_Raise v e :
  parse_version v = Raise e ->
  (e = MalformedVersionError
     /\ length (split (cp ".") v) <> 3%nat /\ length (split (cp ".") v) <> 4%nat)
  \/ from_builtin e.
Proof.
  unfold parse_version.
  destruct (length (split (cp ".") v) =? 3)%nat eqn:E3.
  - apply Nat.eqb_eq in E3. rewrite length_app, E3. simpl.
    intros H. right.
    apply bind_inv_Raise in H as [H | ([[a b] c] & _ & H)]; [eauto using unpack3_Raise |].
    destruct ((split (cp ".") v ++ [lit "a"]) !! 3%nat); [discriminate |].
    injection H as <-. exact I.
  - apply Nat.eqb_neq in E3.
    destruct (length (split (cp ".") v) =? 4)%nat eqn:E4; simpl.
    + intros H. right.
      apply bind_inv_Raise in H as [H | ([[a b] c] & _ & H)]; [eauto using unpack3_Raise |].
      destruct (split (cp ".") v !! 3%nat); [discriminate |].
      injection H as <-. exact I.
    + apply Nat.eqb_neq in E4. intros H. injection H as <-. left. auto.
Qed.

Lemma parse_version_three v a b c :
  split (cp ".") v = [a; b; c] ->
  numeric a = true -> numeric b = true -> numeric c = true ->
  parse_version v = Ok (decimal a, decimal b, decimal c, lit "a").
Proof.
  intros Hs Ha Hb Hc. unfold parse_version. rewrite Hs. simpl.
  rewrite unpack3_numeric by assumption. reflexivity.
Qed.

Lemma parse_version_four v a b c s :
  split (cp ".") v = [a; b; c; s] ->
  numeric a = true -> numeric b = true -> numeric c = true ->
  parse_version v = Ok (decimal a, decimal b, decimal c, s).
Proof.
  intros Hs Ha Hb Hc. unfold parse_version. rewrite Hs. simpl.
  rewrite unpack3_numeric by assumption. reflexivity.
Qed.

Lemma lowercase_spec s :
  lowercase s = true <-> s <> [] /\ forallb is_lower s = true.
Proof.
  unfold lowercase. rewrite andb_true_iff, negb_true_iff, bool_decide_eq_false.
  reflexivity.
Qed.

(** A well-formed version is parsed into three non-negative fields and a
    lowercase suffix. *)
Lemma parse_version_well_formed v :
  well_formed v = true ->
  exists major_ver minor_ver patch_ver suffix,
    parse_version v = Ok (major_ver, minor_ver, patch_ver, suffix)
    /\ 0 <= major_ver /\ 0 <= minor_ver /\ 0 <= patch_ver
    /\ lowercase suffix = true.
Proof.
  intros H.
  destruct (well_formed_inv v H) as [(a & b & c & Hs & Ha & Hb & Hc)
                                    |(a & b & c & s & Hs & Ha & Hb & Hc & Hl)].
  - exists (decimal a), (decimal b), (decimal c), (lit "a").
    split; [now apply parse_version_three |].
    apply numeric_spec in Ha as [_ Ha], Hb as [_ Hb], Hc as [_ Hc].
    auto using decimal_nonneg.
  - exists (decimal a), (decimal b), (decimal c), s.
    split; [now apply parse_version_four |].
    apply numeric_spec in Ha as [_ Ha], Hb as [_ Hb], Hc as [_ Hc].
    auto using decimal_nonneg.
Qed.

Lemma finish_Raise commit v suffix e :
  finish commit v suffix = Raise e -> e = NoDirectiveError /\ commit = false \/ from_builtin e.
Proof.
  destruct v as [[a b] c]. unfold finish. destruct commit.
  - intros H. right.
    apply bind_inv_Raise in H as [H | (s & _ & H)]; [| discriminate].
    eauto using increment_suffix_Raise.
  - simpl. intros H. injection H as <-. left. auto.
Qed.

(** ** [replace] *)

Lemma starts_with_spec p : forall s,
  starts_with p s = true <-> exists post, s = p ++ post.
Proof.
  induction p as [|a p IH]; intros s; simpl.
  - split; eauto.
  - destruct s as [|b s].
    + split; [discriminate | intros [post H]; discriminate].
    + rewrite andb_true_iff, IH, Z.eqb_eq. split.
      * intros [-> [post ->]]. eauto.
      * intros [post H]. injection H as -> ->. eauto.
Qed.

Lemma occurs_at_0 p s : occurs_at p s 0 <-> starts_with p s = true.
Proof. unfold occurs_at. rewrite starts_with_spec. reflexivity. Qed.

Lemma occurs_at_S p c s i : occurs_at p (c :: s) (S i) <-> occurs_at p s i.
Proof. reflexivity. Qed.

Lemma occurs_cons p c s :
  occurs p (c :: s) <-> starts_with p (c :: s) = true \/ occurs p s.
Proof.
  unfold occurs. split.
  - intros [[|i] H]; [left; now apply occurs_at_0 | right; eauto].
  - intros [H | [i H]]; [exists 0%nat; now apply occurs_at_0 | exists (S i); exact H].
Qed.

Lemma replace_scan_skip old new s : forall k,
  replace_scan old new k s = replace_scan old new 0 (drop k s).
Proof.
  induction s as [|c s IH]; intros [|k]; simpl; try reflexivity.
  apply IH.
Qed.

Lemma replace_scan_match old new post :
  old <> [] ->
  replace_scan old new 0 (old ++ post) = new ++ replace_scan old new 0 post.
Proof.
  intros Hne. destruct old as [|a old]; [congruence |].
  change ((a :: old) ++ post) with (a :: (old ++ post)).
  cbn [replace_scan].
  assert (H : starts_with (a :: old) (a :: old ++ post) = true)
    by (apply (starts_with_spec (a :: old)); eauto).
  rewrite H. f_equal. rewrite replace_scan_skip. f_equal.
  replace (length (a :: old) - 1)%nat with (length old) by (simpl; lia).
  apply drop_app_length.
Qed.

Lemma replace_scan_miss old new c s :
  starts_with old (c :: s) = false ->
  replace_scan old new 0 (c :: s) = c :: replace_scan old new 0 s.
Proof. intros H. cbn [replace_scan]. now rewrite H. Qed.

(** A character in front of a text that does not start an occurrence is
    kept in front of the rewritten text. *)
Lemma replaced_cons old new c s r :
  starts_with old (c :: s) = false ->
  replaced old new s r -> replaced old new (c :: s) (c :: r).
Proof.
  intros Hc H. destruct H as [s Habs | pre post r Hfirst Hr].
  - apply replaced_absent. rewrite occurs_cons. intros [H | H]; [congruence | auto].
  - apply (replaced_first old new (c :: pre) post r); [| exact Hr].
    intros [|i] Hi.
    + rewrite occurs_at_0. simpl app. congruence.
    + simpl app. rewrite occurs_at_S. apply Hfirst. simpl in Hi. lia.
Qed.

Lemma replace_scan_replaced old new :
  old <> [] -> forall s, replaced old new s (replace_scan old new 0 s).
Proof.
  intros Hne s.
  induction s as [s IH] using (induction_ltof1 _ (@length Z)). unfold ltof in IH.
  destruct s as [|c s].
  - apply replaced_absent. intros [[|i] [post H]]; simpl in H;
      destruct old; try congruence; discriminate.
  - destruct (starts_with old (c :: s)) eqn:Hsw.
    + apply starts_with_spec in Hsw as [post Hpost]. rewrite Hpost.
      rewrite replace_scan_match by assumption.
      apply (replaced_first old new [] post); [simpl; lia |].
      apply IH. rewrite Hpost, length_app.
      destruct old; [congruence | simpl; lia].
    + rewrite replace_scan_miss by assumption.
      apply replaced_cons; [assumption |]. apply IH. simpl. lia.
Qed.

Lemma replace_replaced old new s :
  old <> [] -> replaced old new s (replace old new s).
Proof.
  intros Hne. destruct old as [|a old]; [congruence |].
  now apply replace_scan_replaced.
Qed.

Lemma replace_absent old new s :
  old <> [] -> ~ occurs old s -> replace old new s = s.
Proof.
  intros Hne Habs. destruct old as [|a old]; [congruence |].
  unfold replace. induction s as [|c s IH]; [reflexivity |].
  rewrite occurs_cons in Habs.
  destruct (starts_with (a :: old) (c :: s)) eqn:Hsw; [tauto |].
  rewrite replace_scan_miss by assumption. f_equal. apply IH. tauto.
Qed.

Lemma occurs_at_middle old pre post : occurs_at old (pre ++ old ++ post) (length pre).
Proof. exists post. apply drop_app_length. Qed.

(** The relation [replaced] leaves no choice: it has one result. *)
Lemma replaced_functional old new s r1 :
  replaced old new s r1 -> forall r2, replaced old new s r2 -> r1 = r2.
Proof.
  induction 1 as [s Habs | pre post r Hfirst Hr IH]; intros r2 H2.
  - inversion H2 as [s' Habs' | pre' post' r' Hfirst' Hr' Hs]; [reflexivity |].
    subst. exfalso. apply Habs. eexists. apply occurs_at_middle.
  - inversion H2 as [s' Habs' | pre' post' r' Hfirst' Hr' Hs]; subst.
    + exfalso. apply Habs'. eexists. apply occurs_at_middle.
    + assert (Hlen : length pre' = length pre).
      { destruct (Nat.lt_trichotomy (length pre') (length pre)) as [Hlt | [Heq | Hgt]];
          [| exact Heq |]; exfalso.
        - apply (Hfirst _ Hlt). rewrite <- Hs. apply occurs_at_middle.
        - apply (Hfirst' _ Hgt). rewrite Hs. apply occurs_at_middle. }
      apply app_inj_1 in Hs as [-> Hs]; [| exact Hlen].
      apply app_inv_head in Hs as ->. f_equal. f_equal. now apply IH.
Qed.

Lemma setup_literal_nonempty v : setup_literal v <> [].
Proof. discriminate. Qed.

Lemma init_literal_nonempty v : init_literal v <> [].
Proof. discriminate. Qed.

(** ** [get_latest_version] *)

Lemma get_latest_version_In versions latest :
  get_latest_version versions = Ok latest -> In latest versions.
Proof.
  destruct versions as [|v l]; [discriminate |].
  unfold get_latest_version, max_by. intros H.
  apply bind_inv_Ok in H as (k & _ & H). now apply max_from_In in H.
Qed.

Lemma get_latest_version_well_formed versions :
  versions <> [] -> Forall (fun v => well_formed v = true) versions ->
  exists latest, get_latest_version versions = Ok latest
    /\ In latest versions
    /\ forall v, In v versions -> lex_le (ordering_tuple v) (ordering_tuple latest).
Proof.
  intros Hne Hwf. destruct versions as [|v l]; [congruence |].
  apply List.Forall_cons_iff in Hwf as [Hv Hl].
  unfold get_latest_version, max_by.
  rewrite (version_key_well_formed v Hv), bind_Ok.
  destruct (max_from_spec version_key l v (ordering_tuple v)
              (version_key_well_formed v Hv)) as (r & kr & Hr & Hin & Hkr & Hle & Hmax).
  { eapply List.Forall_impl; [| exact Hl]. intros w Hw.
    exists (ordering_tuple w). now apply version_key_well_formed. }
  exists r. split; [exact Hr |]. split; [exact Hin |].
  assert (Hwr : well_formed r = true).
  { destruct Hin as [<- | Hin]; [assumption |].
    rewrite List.Forall_forall in Hl. now apply Hl. }
  rewrite (version_key_well_formed r Hwr) in Hkr. injection Hkr as <-.
  intros w [<- | Hw]; [exact Hle |].
  destruct (Hmax w Hw) as (kw & Hkw & Hlew).
  rewrite List.Forall_forall in Hl.
  rewrite (version_key_well_formed w (Hl w Hw)) in Hkw. injection Hkw as <-.
  exact Hlew.
Qed.

(** ** Rendering an integer and reading it back *)

Lemma lit_String a s : lit (String a s) = cp a :: lit s.
Proof. reflexivity. Qed.

Lemma uint_digits d : forallb is_digit (lit (NilEmpty.string_of_uint d)) = true.
Proof. induction d; simpl; [reflexivity | ..]; exact IHd. Qed.

Lemma of_uint_acc_decimal d : forall acc,
  Z.pos (Pos.of_uint_acc d acc)
  = Z.pos acc * 10 ^ Z.of_nat (length (lit (NilEmpty.string_of_uint d)))
    + decimal (lit (NilEmpty.string_of_uint d)).
Proof.
  induction d; intros acc; simpl Pos.of_uint_acc; simpl NilEmpty.string_of_uint;
    [simpl; lia | rewrite IHd, lit_String ..];
    simpl length; simpl decimal;
    rewrite Nat2Z.inj_succ, Z.pow_succ_r by lia;
    set (w := 10 ^ Z.of_nat (length (lit (NilEmpty.string_of_uint d))));
    cp_norm; lia.
Qed.

Lemma of_uint_decimal d :
  Z.of_N (Pos.of_uint d) = decimal (lit (NilEmpty.string_of_uint d)).
Proof.
  induction d; simpl Pos.of_uint; simpl NilEmpty.string_of_uint;
    [reflexivity | rewrite lit_String ..];
    simpl decimal; cp_norm;
    [rewrite IHd; lia | simpl Z.of_N; rewrite of_uint_acc_decimal; lia ..].
Qed.

Lemma to_uint_not_Nil p : Pos.to_uint p <> Decimal.Nil.
Proof.
  intros H. pose proof (DecimalPos.Unsigned.of_to p) as E.
  rewrite H in E. discriminate E.
Qed.

Lemma str_of_int_pos p :
  str_of_int (Z.pos p) = lit (NilEmpty.string_of_uint (Pos.to_uint p)).
Proof.
  unfold str_of_int. simpl. unfold NilZero.string_of_uint.
  pose proof (to_uint_not_Nil p). destruct (Pos.to_uint p); congruence.
Qed.

(** The rendering of a non-negative integer is a run of digits whose
    value is the integer. *)
Lemma str_of_int_numeric n :
  0 <= n -> numeric (str_of_int n) = true /\ decimal (str_of_int n) = n.
Proof.
  intros Hn. destruct n as [|p|p]; [split; reflexivity | | lia].
  rewrite str_of_int_pos. split.
  - apply numeric_spec. split; [| apply uint_digits].
    pose proof (to_uint_not_Nil p). destruct (Pos.to_uint p); [congruence | discriminate ..].
  - rewrite <- of_uint_decimal, DecimalPos.Unsigned.of_to. reflexivity.
Qed.

Lemma int_str_of_int n : 0 <= n -> int (str_of_int n) = Ok n.
Proof.
  intros Hn. destruct (str_of_int_numeric n Hn) as [Hnum Hdec].
  now rewrite int_numeric, Hdec.
Qed.

(** ** Splitting a rendered version *)

Lemma split_no_sep sep s :
  forallb (fun c => negb (c =? sep)) s = true -> split sep s = [s].
Proof.
  induction s as [|c s IH]; simpl; [reflexivity |].
  intros H. apply andb_prop in H as [Hc Hs]. apply negb_true_iff in Hc.
  now rewrite Hc, IH.
Qed.

Lemma split_app sep a rest :
  forallb (fun c => negb (c =? sep)) a = true ->
  split sep (a ++ sep :: rest) = a :: split sep rest.
Proof.
  induction a as [|c a IH]; simpl.
  - now rewrite Z.eqb_refl.
  - intros H. apply andb_prop in H as [Hc Hs]. apply negb_true_iff in Hc.
    now rewrite Hc, IH.
Qed.

Lemma digits_no_dot s :
  forallb is_digit s = true -> forallb (fun c => negb (c =? cp ".")) s = true.
Proof.
  rewrite !List.forallb_forall. intros H c Hc. specialize (H c Hc).
  apply is_digit_spec in H. cp_norm. lia.
Qed.

Lemma lower_no_dot s :
  forallb is_lower s = true -> forallb (fun c => negb (c =? cp ".")) s = true.
Proof.
  rewrite !List.forallb_forall. intros H c Hc. specialize (H c Hc).
  apply is_lower_spec in H. cp_norm. lia.
Qed.

(** A rendered version is read back into the fields it was rendered
    from. *)
Lemma parse_version_format major_ver minor_ver patch_ver suffix :
  0 <= major_ver -> 0 <= minor_ver -> 0 <= patch_ver ->
  forallb (fun c => negb (c =? cp ".")) suffix = true ->
  parse_version (format_version major_ver minor_ver patch_ver suffix)
  = Ok (major_ver, minor_ver, patch_ver, suffix).
Proof.
  intros HM Hm Hp Hs.
  destruct (str_of_int_numeric _ HM) as [Ha Da].
  destruct (str_of_int_numeric _ Hm) as [Hb Db].
  destruct (str_of_int_numeric _ Hp) as [Hc Dc].
  rewrite <- Da at 2. rewrite <- Db at 2. rewrite <- Dc at 2.
  apply parse_version_four; try assumption.
  unfold format_version. change (lit ".") with [cp "."]. simpl app.
  apply numeric_spec in Ha as [_ Ha], Hb as [_ Hb], Hc as [_ Hc].
  rewrite !split_app by now apply digits_no_dot.
  now rewrite split_no_sep.
Qed.

(** ** The builtins on small inputs *)

Example int_examples :
  map int [lit " 12 "; lit "-0"; lit "1_0"; lit "007"; lit "+7"]
  = [Ok 12; Ok 0; Ok 10; Ok 7; Ok 7]
  /\ map int [lit "1__0"; lit "_1"; lit "1_"; lit ""; lit "+ 1"; lit "1 2"]
     = map (fun s => Raise (ValueError (InvalidLiteral s)))
         [lit "1__0"; lit "_1"; lit "1_"; lit ""; lit "+ 1"; lit "1 2"].
Proof. split; vm_compute; reflexivity. Qed.

Example split_examples :
  split (cp ".") (lit "a.b..c") = [lit "a"; lit "b"; lit ""; lit "c"]
  /\ split (cp ".") (lit "") = [lit ""].
Proof. split; reflexivity. Qed.

Example replace_examples :
  replace (lit "aa") (lit "b") (lit "aaa") = lit "ba"
  /\ replace (lit "") (lit "-") (lit "abc") = lit "-a-b-c-"
  /\ replace (lit "") (lit "-") (lit "") = lit "-".
Proof. repeat split; reflexivity. Qed.

Example str_of_int_examples :
  map str_of_int [0; 7; 120; -5] = [lit "0"; lit "7"; lit "120"; lit "-5"].
Proof. vm_compute. reflexivity. Qed.

(** A version written between double quotes is found by the extraction
    patterns but is not rewritten. *)
Example update_version_in_setup_double_quoted :
  let content := lit "version=" ++ [34] ++ lit "1.0.0" ++ [34] in
  update_version_in_setup (lit "setup.py") (Some (lit "1.0.0")) (Some (lit "1.0.1"))
    {[ lit "setup.py" := content ]}
  = Ok {[ lit "setup.py" := content ]}.
Proof. vm_compute. reflexivity. Qed.

(** Without a version to look for, the first rewrite stops at its
    assertion and the second looks for the text [None]. *)
Example update_version_without_old_version :
  update_version_in_setup (lit "setup.py") None (Some (lit "1.0.1"))
    {[ lit "setup.py" := lit "version='None'" ]}
  = Raise (AssertionError "old_version must be provided")
  /\ update_version_in_init (lit "__init__.py") None (Some (lit "1.0.1"))
       {[ lit "__init__.py" := lit "__version__ = 'None'" ]}
     = Ok {[ lit "__init__.py" := lit "__version__ = '1.0.1'" ]}.
Proof. split; vm_compute; reflexivity. Qed.

(** * The properties of the specification *)

(** C1. With a numeric directive set and [commit] not set,
    [update_version] does not return: on ["1.2.3.c"] with [major=True] and
    [commit=False] it raises the [ValueError] whose text asks for at least
    one flag, where the specification expects the result ["2.0.0.c"]. *)
Theorem update_version_major_without_commit :
  update_version (lit "1.2.3.c") true false false false = Raise NoDirectiveError.
Proof. vm_compute. reflexivity. Qed.

(** Without [commit] no well-formed version is ever updated, whatever the
    numeric directives. *)
Lemma update_version_without_commit v major minor patch :
  well_formed v = true ->
  update_version v major minor patch false = Raise NoDirectiveError.
Proof.
  intros H. destruct (parse_version_well_formed v H) as (M & m & p & s & Hp & _).
  unfold update_version. rewrite Hp, bind_Ok.
  destruct (bump major minor patch (M, m, p)) as [[a b] c]. reflexivity.
Qed.

(** C2. The error for a missing directive is raised although a directive
    is given: [update_version("1.0.0", major=True, minor=False,
    patch=False, commit=False)] raises it, where the specification has the
    call succeed. *)
Theorem update_version_directive_given_raises :
  update_version (lit "1.0.0") true false false false = Raise NoDirectiveError.
Proof. vm_compute. reflexivity. Qed.

(** On a well-formed version the error for a missing directive is decided
    by [commit] alone. *)
Lemma update_version_no_directive_iff v major minor patch commit :
  well_formed v = true ->
  update_version v major minor patch commit = Raise NoDirectiveError
  <-> commit = false.
Proof.
  intros H. split.
  - destruct commit; [| reflexivity]. intros Hr.
    destruct (parse_version_well_formed v H) as (M & m & p & s & Hp & _).
    unfold update_version in Hr. rewrite Hp, bind_Ok in Hr.
    apply finish_Raise in Hr as [[_ Hc] | Hb]; [discriminate | destruct Hb].
  - intros ->. now apply update_version_without_commit.
Qed.

(** C3. [update_version] raises the malformed-version error exactly when
    [current_version] does not split at its dots into 3 or 4 components. *)
Theorem update_version_malformed_iff v major minor patch commit :
  update_version v major minor patch commit = Raise MalformedVersionError
  <-> length (split (cp ".") v) <> 3%nat /\ length (split (cp ".") v) <> 4%nat.
Proof.
  unfold update_version. split.
  - intros H. apply bind_inv_Raise in H as [H | ([[[M m] p] s] & _ & H)].
    + apply parse_version_Raise in H as [(_ & H3 & H4) | Hb]; [auto | destruct Hb].
    + apply finish_Raise in H as [[He _] | Hb]; [discriminate | destruct Hb].
  - intros [H3 H4]. now rewrite parse_version_malformed.
Qed.

Lemma update_version_malformed_iff_witness :
  update_version (lit "1.2") true false false true = Raise MalformedVersionError.
Proof.
  apply (proj2 (update_version_malformed_iff (lit "1.2") true false false true)).
  vm_compute. split; intros H; discriminate H.
Defined.

(** C4. On a non-empty list of well-formed versions [get_latest_version]
    returns an element that is greatest for the lexicographic order on
    [(major, minor, patch, suffix_ordinal)], a version without suffix
    counting with the ordinal 1 of "a"; so it returns "1.2.4" on
    ["1.2.3", "1.2.3.b", "1.2.4"] and "1.0.0.aa" on
    ["1.0.0.a", "1.0.0.z", "1.0.0.aa"]. *)
Theorem get_latest_version_maximum :
  (forall versions,
      versions <> [] -> Forall (fun v => well_formed v = true) versions ->
      exists latest, get_latest_version versions = Ok latest
        /\ In latest versions
        /\ forall v, In v versions ->
             lex_le (ordering_tuple v) (ordering_tuple latest))
  /\ ordering_tuple (lit "1.2.3") = (1, 2, 3, 1)
  /\ get_latest_version [lit "1.2.3"; lit "1.2.3.b"; lit "1.2.4"] = Ok (lit "1.2.4")
  /\ get_latest_version [lit "1.0.0.a"; lit "1.0.0.z"; lit "1.0.0.aa"]
     = Ok (lit "1.0.0.aa").
Proof.
  split; [exact get_latest_version_well_formed |].
  repeat split; vm_compute; reflexivity.
Qed.

Lemma get_latest_version_maximum_witness :
  exists latest,
    get_latest_version [lit "1.2.3"; lit "1.2.3.b"; lit "1.2.4"] = Ok latest
    /\ In latest [lit "1.2.3"; lit "1.2.3.b"; lit "1.2.4"]
    /\ forall v, In v [lit "1.2.3"; lit "1.2.3.b"; lit "1.2.4"] ->
         lex_le (ordering_tuple v) (ordering_tuple latest).
Proof.
  apply (proj1 get_latest_version_maximum).
  - discriminate.
  - repeat constructor.
Defined.

(** C5. [increment_suffix] is the successor for the suffix ordinal: on
    every string of lowercase letters, the empty one included, it returns
    a string whose [suffix_key] is one more; "z" gives "aa", "zz" gives
    "aaa", "" gives "a" and "az" gives "ba". *)
Theorem increment_suffix_successor :
  (forall s, forallb is_lower s = true ->
     exists r, increment_suffix s = Ok r /\ suffix_key r = suffix_key s + 1)
  /\ increment_suffix (lit "z") = Ok (lit "aa")
  /\ increment_suffix (lit "zz") = Ok (lit "aaa")
  /\ increment_suffix (lit "") = Ok (lit "a")
  /\ increment_suffix (lit "az") = Ok (lit "ba").
Proof.
  split.
  - intros s Hs. destruct (increment_suffix_spec s Hs) as (r & Hr & Hk & _). eauto.
  - repeat split; vm_compute; reflexivity.
Qed.

Lemma increment_suffix_successor_witness :
  exists r, increment_suffix (lit "zz") = Ok r
    /\ suffix_key r = suffix_key (lit "zz") + 1.
Proof.
  apply (proj1 increment_suffix_successor). vm_compute. reflexivity.
Defined.

(** C6. The numeric directives act by precedence.  For a well-formed
    version with fields [(major, minor, patch)]: with [major] set the
    fields become [(major+1, 0, 0)] whatever [minor] and [patch] are;
    otherwise with [minor] set [(major, minor+1, 0)] whatever [patch] is;
    otherwise with [patch] set [(major, minor, patch+1)]; otherwise they
    are unchanged.  These fields are the ones the rest of the function
    works on, and the ones read back from the version it returns. *)
Theorem update_version_precedence v :
  well_formed v = true ->
  exists major_ver minor_ver patch_ver suffix,
    parse_version v = Ok (major_ver, minor_ver, patch_ver, suffix)
    /\ forall major minor patch,
       exists major_ver' minor_ver' patch_ver',
         (major = true ->
            (major_ver', minor_ver', patch_ver') = (major_ver + 1, 0, 0))
         /\ (major = false -> minor = true ->
            (major_ver', minor_ver', patch_ver') = (major_ver, minor_ver + 1, 0))
         /\ (major = false -> minor = false -> patch = true ->
            (major_ver', minor_ver', patch_ver') = (major_ver, minor_ver, patch_ver + 1))
         /\ (major = false -> minor = false -> patch = false ->
            (major_ver', minor_ver', patch_ver') = (major_ver, minor_ver, patch_ver))
         /\ (forall commit,
              update_version v major minor patch commit
              = finish commit (major_ver', minor_ver', patch_ver') suffix)
         /\ exists new_version suffix',
              update_version v major minor patch true = Ok new_version
              /\ parse_version new_version
                 = Ok (major_ver', minor_ver', patch_ver', suffix').
Proof.
  intros H.
  destruct (parse_version_well_formed v H) as (M & m & p & s & Hp & HM & Hm & Hpp & Hs).
  exists M, m, p, s. split; [exact Hp |]. intros major minor patch.
  destruct (bump major minor patch (M, m, p)) as [[M' m'] p'] eqn:Hb.
  exists M', m', p'.
  assert (Hnn : 0 <= M' /\ 0 <= m' /\ 0 <= p').
  { unfold bump in Hb. destruct major, minor, patch; injection Hb as <- <- <-; lia. }
  repeat split.
  - intros ->. now rewrite <- Hb.
  - intros -> ->. now rewrite <- Hb.
  - intros -> -> ->. now rewrite <- Hb.
  - intros -> -> ->. now rewrite <- Hb.
  - intros commit. unfold update_version. now rewrite Hp, bind_Ok, Hb.
  - apply lowercase_spec in Hs as [_ Hs].
    destruct (increment_suffix_spec s Hs) as (s' & Hinc & _ & Hs').
    exists (format_version M' m' p' s'), s'. split.
    + unfold update_version. rewrite Hp, bind_Ok, Hb. unfold finish.
      now rewrite Hinc, bind_Ok.
    + apply lowercase_spec in Hs' as [_ Hs'].
      apply parse_version_format; try tauto. now apply lower_no_dot.
Qed.

Lemma update_version_precedence_witness :
  exists major_ver minor_ver patch_ver suffix,
    parse_version (lit "1.2.3.c") = Ok (major_ver, minor_ver, patch_ver, suffix)
    /\ forall major minor patch,
       exists major_ver' minor_ver' patch_ver',
         (major = true ->
            (major_ver', minor_ver', patch_ver') = (major_ver + 1, 0, 0))
         /\ (major = false -> minor = true ->
            (major_ver', minor_ver', patch_ver') = (major_ver, minor_ver + 1, 0))
         /\ (major = false -> minor = false -> patch = true ->
            (major_ver', minor_ver', patch_ver') = (major_ver, minor_ver, patch_ver + 1))
         /\ (major = false -> minor = false -> patch = false ->
            (major_ver', minor_ver', patch_ver') = (major_ver, minor_ver, patch_ver))
         /\ (forall commit,
              update_version (lit "1.2.3.c") major minor patch commit
              = finish commit (major_ver', minor_ver', patch_ver') suffix)
         /\ exists new_version suffix',
              update_version (lit "1.2.3.c") major minor patch true = Ok new_version
              /\ parse_version new_version
                 = Ok (major_ver', minor_ver', patch_ver', suffix').
Proof.
  apply (update_version_precedence (lit "1.2.3.c")). vm_compute. reflexivity.
Defined.

(** C7. [update_version("1.2.3", major=True, commit=True)] returns
    "2.0.0.b": the missing suffix is read as "a", the major bump sets
    minor and patch to 0, and [commit] moves the suffix on to "b". *)
Theorem update_version_major_commit :
  update_version (lit "1.2.3") true false false true = Ok (lit "2.0.0.b")
  /\ parse_version (lit "1.2.3") = Ok (1, 2, 3, lit "a")
  /\ bump true false false (1, 2, 3) = (2, 0, 0)
  /\ increment_suffix (lit "a") = Ok (lit "b").
Proof. repeat split; vm_compute; reflexivity. Qed.

(** C8. [get_latest_version] raises the error for an empty input on the
    empty list, and on no other list. *)
Theorem get_latest_version_empty_iff versions :
  get_latest_version versions = Raise EmptyInputError <-> versions = [].
Proof.
  split; [| intros ->; reflexivity].
  destruct versions as [|v l]; [reflexivity |].
  unfold get_latest_version, max_by. intros H. exfalso.
  apply bind_inv_Raise in H as [H | (k & _ & H)].
  - now apply version_key_Raise in H.
  - apply max_from_Raise in H as (w & _ & H). now apply version_key_Raise in H.
Qed.

Lemma get_latest_version_empty_iff_witness :
  get_latest_version [] = Raise EmptyInputError.
Proof.
  apply (proj2 (get_latest_version_empty_iff [])). reflexivity.
Defined.

(** C9. Each of the two file rewrites turns the occurrences of its exact
    single-quoted literal ([version='old'], resp. [__version__ = 'old'])
    into the same literal with the new version, keeps every other
    character of the text and every other file, and leaves the text as it
    is when the literal does not occur in it. *)
Theorem file_rewrites_replace_literal
    (path old_version new_version content : str) (fs : files) :
  fs !! path = Some content ->
  (exists content',
      replaced (lit "version='" ++ old_version ++ lit "'")
        (lit "version='" ++ new_version ++ lit "'") content content')
  /\ (forall content',
      replaced (lit "version='" ++ old_version ++ lit "'")
        (lit "version='" ++ new_version ++ lit "'") content content' ->
      update_version_in_setup path (Some old_version) (Some new_version) fs
      = Ok (<[path := content']> fs))
  /\ (exists content',
      replaced (lit "__version__ = '" ++ old_version ++ lit "'")
        (lit "__version__ = '" ++ new_version ++ lit "'") content content')
  /\ (forall content',
      replaced (lit "__version__ = '" ++ old_version ++ lit "'")
        (lit "__version__ = '" ++ new_version ++ lit "'") content content' ->
      update_version_in_init path (Some old_version) (Some new_version) fs
      = Ok (<[path := content']> fs))
  /\ (~ occurs (lit "version='" ++ old_version ++ lit "'") content ->
      update_version_in_setup path (Some old_version) (Some new_version) fs = Ok fs)
  /\ (~ occurs (lit "__version__ = '" ++ old_version ++ lit "'") content ->
      update_version_in_init path (Some old_version) (Some new_version) fs = Ok fs).
Proof.
  intros Hfs.
  change (lit "version='" ++ old_version ++ lit "'")
    with (setup_literal (Some old_version)).
  change (lit "version='" ++ new_version ++ lit "'")
    with (setup_literal (Some new_version)).
  change (lit "__version__ = '" ++ old_version ++ lit "'")
    with (init_literal (Some old_version)).
  change (lit "__version__ = '" ++ new_version ++ lit "'")
    with (init_literal (Some new_version)).
  assert (Hs : update_version_in_setup path (Some old_version) (Some new_version) fs
    = Ok (<[path := replace (setup_literal (Some old_version))
                      (setup_literal (Some new_version)) content]> fs)).
  { unfold update_version_in_setup, read_file, write_file. now rewrite Hfs. }
  assert (Hi : update_version_in_init path (Some old_version) (Some new_version) fs
    = Ok (<[path := replace (init_literal (Some old_version))
                      (init_literal (Some new_version)) content]> fs)).
  { unfold update_version_in_init, read_file, write_file. now rewrite Hfs. }
  pose proof (replace_replaced (setup_literal (Some old_version))
                (setup_literal (Some new_version)) content
                (setup_literal_nonempty _)) as Hrs.
  pose proof (replace_replaced (init_literal (Some old_version))
                (init_literal (Some new_version)) content
                (init_literal_nonempty _)) as Hri.
  split; [eauto |]. split.
  { intros content' Hc. rewrite Hs. now rewrite (replaced_functional _ _ _ _ Hc _ Hrs). }
  split; [eauto |]. split.
  { intros content' Hc. rewrite Hi. now rewrite (replaced_functional _ _ _ _ Hc _ Hri). }
  split.
  - intros Habs. rewrite Hs, replace_absent by auto using setup_literal_nonempty.
    f_equal. now apply insert_id.
  - intros Habs. rewrite Hi, replace_absent by auto using init_literal_nonempty.
    f_equal. now apply insert_id.
Qed.

Lemma file_rewrites_replace_literal_witness :
  update_version_in_setup (lit "setup.py") (Some (lit "1.0.0")) (Some (lit "1.0.1"))
    {[ lit "setup.py" := lit "version='1.0.0' __version__ = '1.0.0'" ]}
  = Ok (<[lit "setup.py" := lit "version='1.0.1' __version__ = '1.0.0'"]>
         {[ lit "setup.py" := lit "version='1.0.0' __version__ = '1.0.0'" ]})
  /\ update_version_in_init (lit "setup.py") (Some (lit "1.0.0")) (Some (lit "1.0.1"))
       {[ lit "setup.py" := lit "version='1.0.0' __version__ = '1.0.0'" ]}
     = Ok (<[lit "setup.py" := lit "version='1.0.0' __version__ = '1.0.1'"]>
            {[ lit "setup.py" := lit "version='1.0.0' __version__ = '1.0.0'" ]}).
Proof.
  destruct (file_rewrites_replace_literal (lit "setup.py") (lit "1.0.0") (lit "1.0.1")
              (lit "version='1.0.0' __version__ = '1.0.0'")
              {[ lit "setup.py" := lit "version='1.0.0' __version__ = '1.0.0'" ]})
    as (_ & Hsetup & _ & Hinit & _).
  { vm_compute. reflexivity. }
  split.
  - apply Hsetup.
    change (replaced (lit "version='" ++ lit "1.0.0" ++ lit "'")
              (lit "version='" ++ lit "1.0.1" ++ lit "'")
              ([] ++ (lit "version='" ++ lit "1.0.0" ++ lit "'")
                  ++ lit " __version__ = '1.0.0'")
              ([] ++ (lit "version='" ++ lit "1.0.1" ++ lit "'")
                  ++ lit " __version__ = '1.0.0'")).
    apply replaced_first.
    + intros i Hi. simpl in Hi. lia.
    + apply replaced_absent. intros [i [post Hp]].
      do 23 (destruct i as [|i]; [vm_compute in Hp; discriminate Hp |]).
      vm_compute in Hp. discriminate Hp.
  - apply Hinit.
    change (replaced (lit "__version__ = '" ++ lit "1.0.0" ++ lit "'")
              (lit "__version__ = '" ++ lit "1.0.1" ++ lit "'")
              (lit "version='1.0.0' "
                 ++ (lit "__version__ = '" ++ lit "1.0.0" ++ lit "'") ++ [])
              (lit "version='1.0.0' "
                 ++ (lit "__version__ = '" ++ lit "1.0.1" ++ lit "'") ++ [])).
    apply replaced_first.
    + intros i Hi [post Hp].
      do 16 (destruct i as [|i]; [vm_compute in Hp; discriminate Hp |]).
      simpl in Hi. lia.
    + apply replaced_absent. intros [i [post Hp]].
      destruct i; vm_compute in Hp; discriminate Hp.
Defined.

(** C10. What [get_latest_version] returns is an element of its input, in
    the form it has there: on a non-empty list of well-formed versions it
    returns, and the result is in the list; a version of three parts comes
    back with its three parts. *)
Theorem get_latest_version_member :
  (forall versions latest,
      get_latest_version versions = Ok latest -> In latest versions)
  /\ (forall versions,
      versions <> [] -> Forall (fun v => well_formed v = true) versions ->
      exists latest, get_latest_version versions = Ok latest /\ In latest versions)
  /\ get_latest_version [lit "1.2.3.z"; lit "1.2.4"; lit "1.2.4.a"] = Ok (lit "1.2.4").
Proof.
  split; [exact get_latest_version_In |]. split.
  - intros versions Hne Hwf.
    destruct (get_latest_version_well_formed versions Hne Hwf) as (r & Hr & Hin & _).
    eauto.
  - vm_compute. reflexivity.
Qed.

Lemma get_latest_version_member_witness :
  exists latest,
    get_latest_version [lit "1.0.0.a"; lit "1.0.0"] = Ok latest
    /\ In latest [lit "1.0.0.a"; lit "1.0.0"].
Proof.
  apply (proj1 (proj2 get_latest_version_member)).
  - discriminate.
  - repeat constructor.
Defined.

(** * Further properties of the code *)

(** ** The suffix ordinal orders suffixes by length, then by letters *)

Lemma suffix_key_bounds s :
  forallb is_lower s = true ->
  26 ^ Z.of_nat (length s) - 1 <= 25 * suffix_key s
  /\ 25 * suffix_key s <= 26 * (26 ^ Z.of_nat (length s) - 1).
Proof.
  induction s as [|c p IH] using rev_ind; intros Hlow.
  - simpl. unfold suffix_key. simpl. lia.
  - rewrite forallb_app in Hlow. apply andb_prop in Hlow as [Hp Hc].
    simpl in Hc. rewrite andb_true_r in Hc. apply is_lower_spec in Hc.
    specialize (IH Hp). rewrite suffix_key_snoc, length_app, Nat.add_1_r.
    rewrite Nat2Z.inj_succ, Z.pow_succ_r by lia. lia.
Qed.

(** X1. Two strings of lowercase letters with the same [suffix_key] are
    the same string: no two suffixes tie in the ordering of versions. *)
Theorem suffix_key_injective s t :
  forallb is_lower s = true -> forallb is_lower t = true ->
  suffix_key s = suffix_key t -> s = t.
Proof.
  revert t. induction s as [|c p IH] using rev_ind; intros t Hs Ht Heq.
  - destruct t as [|d q _] using rev_ind; [reflexivity |]. exfalso.
    rewrite forallb_app in Ht. apply andb_prop in Ht as [Hq Hd].
    simpl in Hd. rewrite andb_true_r in Hd. apply is_lower_spec in Hd.
    pose proof (suffix_key_bounds q Hq) as [Hlo _].
    assert (0 < 26 ^ Z.of_nat (length q)) by (apply Z.pow_pos_nonneg; lia).
    rewrite suffix_key_snoc in Heq. unfold suffix_key in Heq at 1. simpl in Heq. lia.
  - rewrite forallb_app in Hs. apply andb_prop in Hs as [Hp Hc].
    simpl in Hc. rewrite andb_true_r in Hc. apply is_lower_spec in Hc.
    pose proof (suffix_key_bounds p Hp) as [Hlo _].
    assert (0 < 26 ^ Z.of_nat (length p)) by (apply Z.pow_pos_nonneg; lia).
    destruct t as [|d q _] using rev_ind.
    + exfalso. rewrite suffix_key_snoc in Heq. unfold suffix_key in Heq at 2.
      simpl in Heq. lia.
    + rewrite forallb_app in Ht. apply andb_prop in Ht as [Hq Hd].
      simpl in Hd. rewrite andb_true_r in Hd. apply is_lower_spec in Hd.
      rewrite !suffix_key_snoc in Heq.
      assert (c = d) by lia. subst d.
      f_equal. apply IH; try assumption. lia.
Qed.

Lemma suffix_key_injective_witness : lit "ab" = [97; 98].
Proof.
  apply (suffix_key_injective (lit "ab") [97; 98]); vm_compute; reflexivity.
Defined.

(** X2. Among strings of lowercase letters a shorter one always has the
    smaller [suffix_key]: "z" comes before "aa". *)
Theorem suffix_key_shorter_first s t :
  forallb is_lower s = true -> forallb is_lower t = true ->
  (length s < length t)%nat -> suffix_key s < suffix_key t.
Proof.
  intros Hs Ht Hlen.
  pose proof (suffix_key_bounds s Hs) as [_ Hup].
  pose proof (suffix_key_bounds t Ht) as [Hlo _].
  assert (Hpow : 26 ^ Z.of_nat (S (length s)) <= 26 ^ Z.of_nat (length t))
    by (apply Z.pow_le_mono_r; lia).
  rewrite Nat2Z.inj_succ, Z.pow_succ_r in Hpow by lia. lia.
Qed.

Lemma suffix_key_shorter_first_witness : suffix_key (lit "z") < suffix_key (lit "aa").
Proof.
  apply (suffix_key_shorter_first (lit "z") (lit "aa"));
    [reflexivity | reflexivity | simpl; lia].
Defined.

(** ** More on [increment_suffix] *)

(** The part of the list the loop has not reached does not matter to it. *)
Lemma increment_loop_frame (pre : str) : forall post : str,
  increment_loop (length pre) (pre ++ post)
  = (r ← increment_loop (length pre) pre; Ok (r ++ post)).
Proof.
  induction pre as [|c p IH] using rev_ind; intros post; [reflexivity |].
  rewrite length_app, Nat.add_1_r. simpl increment_loop.
  rewrite <- app_assoc. simpl app.
  rewrite (list_lookup_middle p post c (length p) eq_refl).
  rewrite (list_lookup_middle p [] c (length p) eq_refl).
  rewrite !insert_middle.
  destruct (c =? cp "z").
  - rewrite (IH (cp "a" :: post)), (IH [cp "a"]).
    destruct (increment_loop (length p) p) as [r|e]; simpl; [| reflexivity].
    now rewrite <- app_assoc.
  - destruct (chr (c + 1)) as [c'|e]; simpl; [| reflexivity].
    rewrite !insert_middle. now rewrite <- app_assoc.
Qed.

Lemma increment_suffix_loop s : increment_suffix s = increment_loop (length s) s.
Proof. destruct s; reflexivity. Qed.

Lemma increment_suffix_last (s : str) (c : Z) :
  (c <> cp "z" ->
     increment_suffix (s ++ [c]) = (c' ← chr (c + 1); Ok (s ++ [c'])))
  /\ increment_suffix (s ++ [cp "z"])
     = (r ← increment_suffix s; Ok (r ++ [cp "a"])).
Proof.
  rewrite !increment_suffix_loop, !length_app, !Nat.add_1_r. simpl increment_loop.
  rewrite !(list_lookup_middle s [] _ (length s) eq_refl), !insert_middle.
  split.
  - intros Hc. apply Z.eqb_neq in Hc. rewrite Hc.
    destruct (chr (c + 1)); simpl; [now rewrite insert_middle | reflexivity].
  - rewrite Z.eqb_refl. apply increment_loop_frame.
Qed.

(** X3. [increment_suffix] works from the right: a last character other
    than 'z' is replaced by the next character and nothing else changes;
    a last 'z' becomes 'a' and the rest of the string is incremented in
    turn (the carry), an error in the rest being passed on. *)
Theorem increment_suffix_equations (s : str) (c : Z) :
  (c <> cp "z" ->
     increment_suffix (s ++ [c]) = (c' ← chr (c + 1); Ok (s ++ [c'])))
  /\ increment_suffix (s ++ [cp "z"])
     = (r ← increment_suffix s; Ok (r ++ [cp "a"])).
Proof. exact (increment_suffix_last s c). Qed.

Lemma increment_suffix_equations_witness :
  increment_suffix (lit "a" ++ [cp "y"])
  = (c' ← chr (cp "y" + 1); Ok (lit "a" ++ [c'])).
Proof.
  apply (proj1 (increment_suffix_equations (lit "a") (cp "y"))). discriminate.
Defined.

Lemma increment_suffix_returns (s : str) :
  Forall (fun c => 0 <= c < 1114111) s ->
  exists r, increment_suffix s = Ok r
    /\ (length s <= length r <= S (length s))%nat.
Proof.
  rewrite increment_suffix_loop.
  induction s as [|c p IH] using rev_ind; intros Hs.
  - exists [cp "a"]. split; [reflexivity | simpl; lia].
  - apply Forall_app in Hs as [Hp Hc]. apply Forall_inv in Hc.
    rewrite length_app, Nat.add_1_r. simpl increment_loop.
    rewrite (list_lookup_middle p [] c (length p) eq_refl), insert_middle.
    destruct (c =? cp "z").
    + rewrite increment_loop_frame.
      destruct (IH Hp) as (r & -> & Hlen). exists (r ++ [cp "a"]).
      split; [reflexivity |]. rewrite length_app. simpl. lia.
    + unfold chr.
      destruct ((0 <=? c + 1) && (c + 1 <? 1114112)) eqn:E; [| lia].
      simpl. rewrite insert_middle. exists (p ++ [c + 1]).
      split; [reflexivity |]. rewrite !length_app. simpl. lia.
Qed.

(** X4. [increment_suffix] raises only when the character it has to move
    forward is the last code point: on a string without that character it
    returns a string of the same length or one character longer. *)
Theorem increment_suffix_total (s : str) :
  Forall (fun c => 0 <= c < 1114111) s ->
  exists r, increment_suffix s = Ok r
    /\ (length s <= length r <= S (length s))%nat.
Proof. exact (increment_suffix_returns s). Qed.

Lemma increment_suffix_total_witness :
  exists r, increment_suffix (lit "Zz") = Ok r
    /\ (length (lit "Zz") <= length r <= S (length (lit "Zz")))%nat.
Proof.
  apply (increment_suffix_total (lit "Zz")).
  repeat constructor; vm_compute; discriminate.
Defined.

(** X5. On lowercase letters [increment_suffix] stays within lowercase
    letters and never returns the empty string. *)
Theorem increment_suffix_lowercase (s : str) :
  forallb is_lower s = true ->
  exists r, increment_suffix s = Ok r /\ lowercase r = true.
Proof.
  intros Hs. destruct (increment_suffix_spec s Hs) as (r & Hr & _ & Hl). eauto.
Qed.

Lemma increment_suffix_lowercase_witness :
  exists r, increment_suffix (lit "zz") = Ok r /\ lowercase r = true.
Proof. apply (increment_suffix_lowercase (lit "zz")). reflexivity. Defined.

(** ** Rendering and parsing versions *)

Lemma str_of_int_neg p :
  str_of_int (Z.neg p) = cp "-" :: lit (NilEmpty.string_of_uint (Pos.to_uint p)).
Proof.
  unfold str_of_int. simpl. rewrite lit_String. f_equal.
  unfold NilZero.string_of_uint.
  pose proof (to_uint_not_Nil p). destruct (Pos.to_uint p); congruence.
Qed.

(** The rendering of an integer has no blank and no dot, and [int] reads
    the integer back. *)
Lemma str_of_int_read_back n :
  int (str_of_int n) = Ok n
  /\ forallb (fun c => negb (c =? cp ".")) (str_of_int n) = true.
Proof.
  destruct n as [|p|p].
  - split; reflexivity.
  - split; [apply int_str_of_int; lia |].
    apply digits_no_dot. rewrite str_of_int_pos. apply uint_digits.
  - rewrite str_of_int_neg.
    set (ds := lit (NilEmpty.string_of_uint (Pos.to_uint p))).
    assert (Hds : forallb is_digit ds = true) by apply uint_digits.
    assert (Hne : ds <> []).
    { subst ds. pose proof (to_uint_not_Nil p).
      destruct (Pos.to_uint p); [congruence | discriminate ..]. }
    split.
    + unfold int. rewrite strip_id.
      2:{ constructor; [reflexivity |]. apply List.Forall_forall. intros c Hc.
          apply digit_not_space. rewrite List.forallb_forall in Hds. now apply Hds. }
      rewrite Z.eqb_refl.
      rewrite (int_digits_decimal ds 0 false Hds) by now left.
      f_equal. subst ds. rewrite <- of_uint_decimal, DecimalPos.Unsigned.of_to.
      simpl. lia.
    + simpl. now rewrite digits_no_dot.
Qed.

Lemma split_format_version major_ver minor_ver patch_ver suffix :
  forallb (fun c => negb (c =? cp ".")) suffix = true ->
  split (cp ".") (format_version major_ver minor_ver patch_ver suffix)
  = [str_of_int major_ver; str_of_int minor_ver; str_of_int patch_ver; suffix].
Proof.
  intros Hs. unfold format_version. change (lit ".") with [cp "."]. simpl app.
  rewrite !split_app by apply str_of_int_read_back.
  now rewrite split_no_sep.
Qed.

Lemma parse_format_version major_ver minor_ver patch_ver suffix :
  forallb (fun c => negb (c =? cp ".")) suffix = true ->
  parse_version (format_version major_ver minor_ver patch_ver suffix)
  = Ok (major_ver, minor_ver, patch_ver, suffix).
Proof.
  intros Hs. unfold parse_version. rewrite split_format_version by assumption.
  simpl. unfold unpack3. simpl map_int.
  rewrite (proj1 (str_of_int_read_back major_ver)),
    (proj1 (str_of_int_read_back minor_ver)),
    (proj1 (str_of_int_read_back patch_ver)).
  reflexivity.
Qed.

(** X6. A version rendered by the f-string of [update_version] is read
    back by its parsing step into the same three integers and the same
    suffix, whatever the integers, as long as the suffix has no dot. *)
Theorem format_version_round_trip major_ver minor_ver patch_ver suffix :
  forallb (fun c => negb (c =? cp ".")) suffix = true ->
  parse_version (format_version major_ver minor_ver patch_ver suffix)
  = Ok (major_ver, minor_ver, patch_ver, suffix).
Proof. exact (parse_format_version major_ver minor_ver patch_ver suffix). Qed.

Lemma format_version_round_trip_witness :
  parse_version (format_version (-1) 20 0 (lit "Ab"))
  = Ok (-1, 20, 0, lit "Ab").
Proof. apply (format_version_round_trip (-1) 20 0 (lit "Ab")). reflexivity. Defined.

(** What [update_version] and [version_key] read in a well-formed
    version. *)
Lemma well_formed_fields v :
  well_formed v = true ->
  exists major_ver minor_ver patch_ver suffix,
    parse_version v = Ok (major_ver, minor_ver, patch_ver, suffix)
    /\ version_key v = Ok (major_ver, minor_ver, patch_ver, suffix_key suffix)
    /\ 0 <= major_ver /\ 0 <= minor_ver /\ 0 <= patch_ver
    /\ lowercase suffix = true.
Proof.
  intros H. pose proof (version_key_well_formed v H) as Hk.
  unfold ordering_tuple in Hk.
  destruct (well_formed_inv v H) as [(a & b & c & Hs & Ha & Hb & Hc)
                                    |(a & b & c & s & Hs & Ha & Hb & Hc & Hl)];
    rewrite Hs in Hk.
  - exists (decimal a), (decimal b), (decimal c), (lit "a").
    split; [now apply parse_version_three |].
    split; [now rewrite suffix_key_ordinal |].
    apply numeric_spec in Ha as [_ Ha], Hb as [_ Hb], Hc as [_ Hc].
    auto using decimal_nonneg.
  - exists (decimal a), (decimal b), (decimal c), s.
    split; [now apply parse_version_four |].
    split; [now rewrite suffix_key_ordinal |].
    apply numeric_spec in Ha as [_ Ha], Hb as [_ Hb], Hc as [_ Hc].
    auto using decimal_nonneg.
Qed.

Lemma well_formed_format major_ver minor_ver patch_ver suffix :
  0 <= major_ver -> 0 <= minor_ver -> 0 <= patch_ver -> lowercase suffix = true ->
  well_formed (format_version major_ver minor_ver patch_ver suffix) = true.
Proof.
  intros HM Hm Hp Hs. unfold well_formed.
  rewrite split_format_version
    by (apply lower_no_dot; now apply lowercase_spec in Hs as [_ Hs]).
  rewrite (proj1 (str_of_int_numeric _ HM)), (proj1 (str_of_int_numeric _ Hm)),
    (proj1 (str_of_int_numeric _ Hp)), Hs. reflexivity.
Qed.

(** With [commit] set, [update_version] returns on every well-formed
    version the rendering of the bumped fields and the next suffix. *)
Lemma update_version_commit v major minor patch :
  well_formed v = true ->
  exists major_ver minor_ver patch_ver suffix major_ver' minor_ver' patch_ver' suffix',
    version_key v = Ok (major_ver, minor_ver, patch_ver, suffix_key suffix)
    /\ bump major minor patch (major_ver, minor_ver, patch_ver)
       = (major_ver', minor_ver', patch_ver')
    /\ 0 <= major_ver /\ 0 <= minor_ver /\ 0 <= patch_ver
    /\ 0 <= major_ver' /\ 0 <= minor_ver' /\ 0 <= patch_ver'
    /\ lowercase suffix' = true
    /\ suffix_key suffix' = suffix_key suffix + 1
    /\ update_version v major minor patch true
       = Ok (format_version major_ver' minor_ver' patch_ver' suffix').
Proof.
  intros H.
  destruct (well_formed_fields v H) as (M & m & p & s & Hp & Hk & HM & Hm & Hpp & Hs).
  destruct (bump major minor patch (M, m, p)) as [[M' m'] p'] eqn:Hb.
  apply lowercase_spec in Hs as [_ Hs].
  destruct (increment_suffix_spec s Hs) as (s' & Hinc & Hkey & Hs').
  exists M, m, p, s, M', m', p', s'.
  assert (Hnn : 0 <= M' /\ 0 <= m' /\ 0 <= p').
  { unfold bump in Hb. destruct major, minor, patch; injection Hb as <- <- <-; lia. }
  repeat split; try tauto.
  unfold update_version. rewrite Hp, bind_Ok, Hb. unfold finish.
  now rewrite Hinc, bind_Ok.
Qed.

(** X7. With [commit] set, [update_version] turns a well-formed version
    into a well-formed version: its result can be given back to it, and
    to [get_latest_version]. *)
Theorem update_version_well_formed v major minor patch :
  well_formed v = true ->
  exists new_version,
    update_version v major minor patch true = Ok new_version
    /\ well_formed new_version = true
    /\ length (split (cp ".") new_version) = 4%nat.
Proof.
  intros H.
  destruct (update_version_commit v major minor patch H)
    as (M & m & p & s & M' & m' & p' & s' & _ & _ & _ & _ & _ & HM & Hm & Hp & Hs & _ & Hu).
  exists (format_version M' m' p' s'). split; [exact Hu |].
  split; [now apply well_formed_format |].
  rewrite split_format_version; [reflexivity |].
  apply lower_no_dot. now apply lowercase_spec in Hs as [_ Hs].
Qed.

Lemma update_version_well_formed_witness :
  exists new_version,
    update_version (lit "0.9.9") false true false true = Ok new_version
    /\ well_formed new_version = true
    /\ length (split (cp ".") new_version) = 4%nat.
Proof. apply (update_version_well_formed (lit "0.9.9")). reflexivity. Defined.

(** X8. With [commit] set, the version [update_version] returns is later
    than the one it was given: its key is strictly greater, so
    [get_latest_version] picks it out of the two, in either order. *)
Theorem update_version_is_later v major minor patch :
  well_formed v = true ->
  exists new_version k k',
    update_version v major minor patch true = Ok new_version
    /\ version_key v = Ok k /\ version_key new_version = Ok k'
    /\ key_gt k' k = true
    /\ get_latest_version [v; new_version] = Ok new_version
    /\ get_latest_version [new_version; v] = Ok new_version.
Proof.
  intros H.
  destruct (update_version_commit v major minor patch H)
    as (M & m & p & s & M' & m' & p' & s' & Hk & Hb & HM0 & Hm0 & Hp0
        & HM & Hm & Hp & Hs & Hkey & Hu).
  pose proof (well_formed_format M' m' p' s' HM Hm Hp Hs) as Hwf.
  destruct (well_formed_fields _ Hwf) as (M2 & m2 & p2 & s2 & Hp2 & Hk2 & _).
  rewrite parse_format_version in Hp2
    by (apply lower_no_dot; now apply lowercase_spec in Hs as [_ Hs]).
  injection Hp2 as <- <- <- <-.
  assert (Hgt : key_gt (M', m', p', suffix_key s') (M, m, p, suffix_key s) = true).
  { rewrite Hkey. unfold bump in Hb. unfold key_gt.
    destruct major, minor, patch; injection Hb as <- <- <-;
      repeat match goal with
        | |- context [?a =? ?b] => destruct (Z.eqb_spec a b); simpl; try lia
        end. }
  exists (format_version M' m' p' s'), (M, m, p, suffix_key s), (M', m', p', suffix_key s').
  repeat split; try assumption.
  - unfold get_latest_version, max_by. rewrite Hk, bind_Ok. simpl max_from.
    rewrite Hk2, bind_Ok, Hgt. reflexivity.
  - unfold get_latest_version, max_by. rewrite Hk2, bind_Ok. simpl max_from.
    rewrite Hk, bind_Ok.
    destruct (key_gt (M, m, p, suffix_key s) (M', m', p', suffix_key s')) eqn:E;
      [| reflexivity].
    exfalso. apply key_gt_true in E. apply key_gt_false in E. congruence.
Qed.

Lemma update_version_is_later_witness :
  exists new_version k k',
    update_version (lit "1.2.3.z") false false false true = Ok new_version
    /\ version_key (lit "1.2.3.z") = Ok k /\ version_key new_version = Ok k'
    /\ key_gt k' k = true
    /\ get_latest_version [lit "1.2.3.z"; new_version] = Ok new_version
    /\ get_latest_version [new_version; lit "1.2.3.z"] = Ok new_version.
Proof. apply (update_version_is_later (lit "1.2.3.z")). reflexivity. Defined.

(** ** More on [get_latest_version] *)

Lemma map_int_length l : forall ns, map_int l = Ok ns -> length ns = length l.
Proof.
  induction l as [|s l IH]; simpl; intros ns H.
  - now injection H as <-.
  - apply bind_inv_Ok in H as (n & _ & H). apply bind_inv_Ok in H as (ms & Hms & H).
    injection H as <-. simpl. f_equal. now apply IH.
Qed.

Lemma version_key_short v :
  (length (split (cp ".") v) < 3)%nat -> exists e, version_key v = Raise e.
Proof.
  intros Hlen. unfold version_key, unpack3.
  rewrite take_ge by lia.
  destruct (map_int (split (cp ".") v)) as [ns|e] eqn:Hm; [| eauto].
  apply map_int_length in Hm. rewrite bind_Ok.
  destruct ns as [|a [|b [|c [|d r]]]]; simpl in Hm; try lia; simpl; eauto.
Qed.

Lemma max_from_raises (f : str -> result key) l : forall best best_key,
  (exists v e, In v l /\ f v = Raise e) ->
  exists e, max_from f best best_key l = Raise e.
Proof.
  induction l as [|w l IH]; intros best bk (v & e & Hin & Hf); [destruct Hin |].
  simpl max_from. destruct (f w) as [k|e'] eqn:Hw; [| simpl; eauto].
  rewrite bind_Ok. destruct Hin as [-> | Hin]; [congruence |].
  destruct (key_gt k bk); apply IH; eauto.
Qed.

(** X9. A version with fewer than three components anywhere in the list
    makes [get_latest_version] raise, and what it raises is an exception of
    [int] or of the unpacking, not the error for an empty list. *)
Theorem get_latest_version_short_component versions v :
  In v versions -> (length (split (cp ".") v) < 3)%nat ->
  exists e, get_latest_version versions = Raise e /\ from_builtin e.
Proof.
  intros Hin Hlen. destruct (version_key_short v Hlen) as [e He].
  assert (Hr : exists e', get_latest_version versions = Raise e').
  { destruct versions as [|w l]; [destruct Hin |].
    unfold get_latest_version, max_by.
    destruct (version_key w) as [k|e'] eqn:Hw; [| simpl; eauto].
    rewrite bind_Ok. destruct Hin as [-> | Hin]; [congruence |].
    apply max_from_raises. eauto. }
  destruct Hr as [e' Hr]. exists e'. split; [exact Hr |].
  destruct versions as [|w l]; [destruct Hin |].
  unfold get_latest_version, max_by in Hr.
  apply bind_inv_Raise in Hr as [Hr | (k & _ & Hr)].
  - now apply version_key_Raise in Hr.
  - apply max_from_Raise in Hr as (u & _ & Hu). now apply version_key_Raise in Hu.
Qed.

Lemma get_latest_version_short_component_witness :
  exists e, get_latest_version [lit "1.2.3"; lit "1.2"] = Raise e /\ from_builtin e.
Proof.
  apply (get_latest_version_short_component [lit "1.2.3"; lit "1.2"] (lit "1.2")).
  - simpl. tauto.
  - vm_compute. reflexivity.
Defined.

Lemma key_gt_trans a b c :
  key_gt b a = true -> key_gt c b = true -> key_gt c a = true.
Proof.
  destruct a as [[[a1 a2] a3] a4], b as [[[b1 b2] b3] b4], c as [[[c1 c2] c3] c4].
  unfold key_gt.
  repeat match goal with
    | |- context [?x =? ?y] => destruct (Z.eqb_spec x y); simpl; try lia
    end.
Qed.

Lemma key_gt_le_trans a b c :
  key_gt a b = false -> key_gt c b = true -> key_gt c a = true.
Proof.
  destruct a as [[[a1 a2] a3] a4], b as [[[b1 b2] b3] b4], c as [[[c1 c2] c3] c4].
  unfold key_gt.
  repeat match goal with
    | |- context [?x =? ?y] => destruct (Z.eqb_spec x y); simpl; try lia
    end.
Qed.

(** The loop of [max], with the elements it has passed: [seen] are the
    elements before the candidate, all with a smaller key, and [kept] the
    elements after it that did not replace it. *)
Lemma max_from_first (f : str -> result key) l :
  forall seen best best_key kept r,
  f best = Ok best_key ->
  (forall w, In w seen -> exists kw, f w = Ok kw /\ key_gt best_key kw = true) ->
  (forall w, In w kept -> exists kw, f w = Ok kw /\ key_gt kw best_key = false) ->
  max_from f best best_key l = Ok r ->
  exists pre post k,
    seen ++ best :: kept ++ l = pre ++ r :: post
    /\ f r = Ok k
    /\ (forall w, In w pre -> exists kw, f w = Ok kw /\ key_gt k kw = true)
    /\ (forall w, In w post -> exists kw, f w = Ok kw /\ key_gt kw k = false).
Proof.
  induction l as [|v l IH]; intros seen best bk kept r Hb Hseen Hkept H.
  - simpl in H. injection H as <-. exists seen, kept, bk.
    rewrite app_nil_r. auto.
  - simpl in H. apply bind_inv_Ok in H as (k & Hk & H).
    destruct (key_gt k bk) eqn:Hgt.
    + destruct (IH (seen ++ best :: kept) v k [] r Hk) as (pre & post & kr & Heq & Hr);
        [| intros w [] | exact H |].
      * intros w Hw. apply in_app_or in Hw as [Hw | [<- | Hw]].
        -- destruct (Hseen w Hw) as (kw & Hfw & Hlt). exists kw.
           split; [exact Hfw |]. eapply key_gt_trans; eassumption.
        -- eauto.
        -- destruct (Hkept w Hw) as (kw & Hfw & Hle). exists kw.
           split; [exact Hfw |]. eapply key_gt_le_trans; eassumption.
      * exists pre, post, kr. split; [| exact Hr].
        rewrite <- Heq. rewrite <- !app_assoc. reflexivity.
    + destruct (IH seen best bk (kept ++ [v]) r Hb Hseen) as (pre & post & kr & Heq & Hr);
        [| exact H |].
      * intros w Hw. apply in_app_or in Hw as [Hw | [<- | []]]; eauto.
      * exists pre, post, kr. split; [| exact Hr].
        rewrite <- Heq. rewrite <- !app_assoc. reflexivity.
Qed.

(** X10. Among versions with the greatest key [get_latest_version]
    returns the first one: every version before the one returned has a
    strictly smaller key, and no version after it has a greater one. *)
Theorem get_latest_version_first_greatest versions latest :
  get_latest_version versions = Ok latest ->
  exists pre post k,
    versions = pre ++ latest :: post
    /\ version_key latest = Ok k
    /\ (forall w, In w pre -> exists kw, version_key w = Ok kw /\ key_gt k kw = true)
    /\ (forall w, In w post -> exists kw, version_key w = Ok kw /\ key_gt kw k = false).
Proof.
  destruct versions as [|v l]; [discriminate |].
  unfold get_latest_version, max_by. intros H.
  apply bind_inv_Ok in H as (k & Hk & H).
  apply (max_from_first version_key l [] v k [] latest Hk) in H;
    [exact H | intros w [] | intros w []].
Qed.

Lemma get_latest_version_first_greatest_witness :
  exists pre post k,
    [lit "1.0.0"; lit "1.0.1.a"; lit "1.0.1"] = pre ++ lit "1.0.1.a" :: post
    /\ version_key (lit "1.0.1.a") = Ok k
    /\ (forall w, In w pre -> exists kw, version_key w = Ok kw /\ key_gt k kw = true)
    /\ (forall w, In w post -> exists kw, version_key w = Ok kw /\ key_gt kw k = false).
Proof.
  apply (get_latest_version_first_greatest
           [lit "1.0.0"; lit "1.0.1.a"; lit "1.0.1"] (lit "1.0.1.a")).
  vm_compute. reflexivity.
Defined.

(** ** More on the file rewrites *)

Lemma occurs_In pattern s c : occurs pattern s -> In c pattern -> In c s.
Proof.
  intros (i & post & H) Hc. rewrite <- (take_drop i s), H.
  apply in_or_app. right. apply in_or_app. now left.
Qed.

Lemma literal_has_quote version :
  In 39 (setup_literal version) /\ In 39 (init_literal version).
Proof.
  split; [unfold setup_literal | unfold init_literal];
    apply in_or_app; right; apply in_or_app; right; now left.
Qed.

Lemma update_version_in_setup_written (path old_version new_version content : str)
    (fs : files) :
  fs !! path = Some content ->
  update_version_in_setup path (Some old_version) (Some new_version) fs
  = Ok (<[path := replace (setup_literal (Some old_version))
                    (setup_literal (Some new_version)) content]> fs).
Proof.
  intros Hfs. unfold update_version_in_setup, read_file, write_file. now rewrite Hfs.
Qed.

Lemma update_version_in_init_written (path old_version new_version content : str)
    (fs : files) :
  fs !! path = Some content ->
  update_version_in_init path (Some old_version) (Some new_version) fs
  = Ok (<[path := replace (init_literal (Some old_version))
                    (init_literal (Some new_version)) content]> fs).
Proof.
  intros Hfs. unfold update_version_in_init, read_file, write_file. now rewrite Hfs.
Qed.

(** X11. A file without a single-quote character is never changed by the
    rewrites: a version written between double quotes, which the
    extraction accepts, stays as it is. *)
Theorem rewrites_need_single_quote
    (path content : str) (old_version new_version : str) (fs : files) :
  fs !! path = Some content -> ~ In 39 content ->
  update_version_in_setup path (Some old_version) (Some new_version) fs = Ok fs
  /\ update_version_in_init path (Some old_version) (Some new_version) fs = Ok fs.
Proof.
  intros Hfs Hq.
  rewrite (update_version_in_setup_written _ _ _ _ _ Hfs),
    (update_version_in_init_written _ _ _ _ _ Hfs).
  split.
  - rewrite replace_absent; [f_equal; now apply insert_id | apply setup_literal_nonempty |].
    intros Ho. apply Hq. eapply occurs_In; [exact Ho | apply literal_has_quote].
  - rewrite replace_absent; [f_equal; now apply insert_id | apply init_literal_nonempty |].
    intros Ho. apply Hq. eapply occurs_In; [exact Ho | apply literal_has_quote].
Qed.

Lemma rewrites_need_single_quote_witness :
  let fs : files := {[ lit "setup.py" := lit "version=" ++ [34] ++ lit "1.0.0" ++ [34] ]} in
  update_version_in_setup (lit "setup.py") (Some (lit "1.0.0")) (Some (lit "1.0.1")) fs
  = Ok fs
  /\ update_version_in_init (lit "setup.py") (Some (lit "1.0.0")) (Some (lit "1.0.1")) fs
     = Ok fs.
Proof.
  apply (rewrites_need_single_quote (lit "setup.py")
           (lit "version=" ++ [34] ++ lit "1.0.0" ++ [34])).
  - vm_compute. reflexivity.
  - vm_compute. intuition discriminate.
Defined.

Lemma replaced_occurs old new s r :
  replaced old new s r -> occurs old s -> occurs new r.
Proof.
  intros [s' Habs | pre post r' _ _] Ho; [contradiction |].
  exists (length pre). apply occurs_at_middle.
Qed.

(** X12. When the literal of the old version occurs in the file, the file
    written back contains the literal of the new version. *)
Theorem rewrites_write_new_literal
    (path content : str) (old_version new_version : str) (fs : files) :
  fs !! path = Some content ->
  (occurs (setup_literal (Some old_version)) content ->
   exists fs' content',
     update_version_in_setup path (Some old_version) (Some new_version) fs = Ok fs'
     /\ fs' !! path = Some content'
     /\ occurs (setup_literal (Some new_version)) content')
  /\ (occurs (init_literal (Some old_version)) content ->
   exists fs' content',
     update_version_in_init path (Some old_version) (Some new_version) fs = Ok fs'
     /\ fs' !! path = Some content'
     /\ occurs (init_literal (Some new_version)) content').
Proof.
  intros Hfs.
  rewrite (update_version_in_setup_written _ _ _ _ _ Hfs),
    (update_version_in_init_written _ _ _ _ _ Hfs).
  split; intros Ho; eexists; eexists;
    (split; [reflexivity |]); (split; [apply lookup_insert_eq |]);
    (eapply replaced_occurs; [apply replace_replaced | exact Ho]).
  - apply setup_literal_nonempty.
  - apply init_literal_nonempty.
Qed.

Lemma rewrites_write_new_literal_witness :
  exists fs' content',
    update_version_in_setup (lit "setup.py") (Some (lit "1.0.0")) (Some (lit "1.0.1"))
      {[ lit "setup.py" := lit "version='1.0.0'" ]} = Ok fs'
    /\ fs' !! lit "setup.py" = Some content'
    /\ occurs (setup_literal (Some (lit "1.0.1"))) content'.
Proof.
  destruct (rewrites_write_new_literal (lit "setup.py") (lit "version='1.0.0'")
              (lit "1.0.0") (lit "1.0.1")
              {[ lit "setup.py" := lit "version='1.0.0'" ]}) as [H _].
  - vm_compute. reflexivity.
  - apply H. exists 0%nat, []. reflexivity.
Defined.

(** ** The matcher finds words of the pattern *)

Lemma many_sound p s : forall r,
  In r (many p s) -> exists u, s = u ++ r /\ forallb p u = true.
Proof.
  induction s as [|c s IH]; simpl; intros r Hr.
  - destruct Hr as [<- | []]. exists []. auto.
  - destruct (p c) eqn:Hc.
    + apply in_app_or in Hr as [Hr | [<- | []]].
      * destruct (IH r Hr) as (u & -> & Hu). exists (c :: u). simpl.
        now rewrite Hc, Hu.
      * exists []. auto.
    + destruct Hr as [<- | []]. exists []. auto.
Qed.

Lemma matches_sound re : forall s r,
  In r (matches re s) -> exists u, s = u ++ r /\ lang re u.
Proof.
  induction re as [p | r1 IH1 r2 IH2 | p | p | re IH]; intros s r Hr; simpl in Hr.
  - destruct s as [|c s]; [destruct Hr |]. destruct (p c) eqn:Hc; [| destruct Hr].
    destruct Hr as [<- | []]. exists [c]. split; [reflexivity | now constructor].
  - apply in_flat_map in Hr as (m & Hm & Hr).
    destruct (IH1 _ _ Hm) as (u & -> & Hu). destruct (IH2 _ _ Hr) as (v & -> & Hv).
    exists (u ++ v). rewrite <- app_assoc. split; [reflexivity | now constructor].
  - destruct s as [|c s]; [destruct Hr |]. destruct (p c) eqn:Hc; [| destruct Hr].
    destruct (many_sound p s r Hr) as (u & -> & Hu).
    exists (c :: u). split; [reflexivity |]. constructor; [discriminate |].
    simpl. now rewrite Hc, Hu.
  - destruct (many_sound p s r Hr) as (u & -> & Hu).
    exists u. split; [reflexivity | now constructor].
  - apply in_app_or in Hr as [Hr | [<- | []]].
    + destruct (IH _ _ Hr) as (u & -> & Hu). exists u.
      split; [reflexivity | now apply lang_Opt_some].
    + exists []. split; [reflexivity | apply lang_Opt_none].
Qed.

Lemma hd_error_In {A} (l : list A) x : hd_error l = Some x -> In x l.
Proof. destruct l; simpl; [discriminate | intros [= ->]; now left]. Qed.

(** A match at the head of [s]: the words of the three parts follow one
    another there, and the group is the middle one. *)
Lemma match_group_sound pre body post s g :
  match_group pre body post s = Some g ->
  exists u w r, s = u ++ g ++ w ++ r
    /\ lang pre u /\ lang body g /\ lang post w.
Proof.
  unfold match_group. intros H. apply hd_error_In in H.
  apply in_flat_map in H as (r1 & H1 & H).
  apply in_flat_map in H as (r2 & H2 & H).
  apply in_map_iff in H as (r3 & Hg & H3).
  destruct (matches_sound _ _ _ H1) as (u & -> & Hu).
  destruct (matches_sound _ _ _ H2) as (v & -> & Hv).
  destruct (matches_sound _ _ _ H3) as (w & -> & Hw).
  exists u, w, r3. subst g.
  replace (length (v ++ w ++ r3) - length (w ++ r3))%nat with (length v)
    by (rewrite !length_app; lia).
  rewrite take_app_length. auto.
Qed.

Lemma search_sound pre body post s : forall g,
  search pre body post s = Some g ->
  exists before u w r, s = before ++ u ++ g ++ w ++ r
    /\ lang pre u /\ lang body g /\ lang post w.
Proof.
  induction s as [|c s IH]; intros g; simpl.
  - destruct (match_group pre body post []) as [g'|] eqn:Hm; [| discriminate].
    intros [= <-]. apply match_group_sound in Hm as (u & w & r & H).
    exists [], u, w, r. exact H.
  - destruct (match_group pre body post (c :: s)) as [g'|] eqn:Hm.
    + intros [= <-]. apply match_group_sound in Hm as (u & w & r & H).
      exists [], u, w, r. exact H.
    + intros H. apply IH in H as (before & u & w & r & -> & H).
      exists (c :: before), u, w, r. auto.
Qed.

(** A match somewhere is enough for [search] to return a match. *)
Lemma search_complete pre body post s : forall i g,
  match_group pre body post (drop i s) = Some g ->
  exists g', search pre body post s = Some g'.
Proof.
  induction s as [|c s IH]; intros i g H.
  - rewrite drop_nil in H. simpl. rewrite H. eauto.
  - simpl. destruct (match_group pre body post (c :: s)) as [g'|] eqn:Hm; [eauto |].
    destruct i as [|i]; [simpl in H; congruence |].
    simpl in H. eapply IH. exact H.
Qed.

Lemma search_head pre body post s g :
  match_group pre body post s = Some g -> search pre body post s = Some g.
Proof. intros H. destruct s; simpl; now rewrite H. Qed.

(** ** The words of the group are versions *)

Lemma ci_dot x : ci "." x = true -> x = cp ".".
Proof. unfold ci. cp_norm. unfold is_lower, is_upper. cp_norm. simpl. lia. Qed.

Lemma letter_no_dot s :
  forallb letter_class s = true -> forallb (fun c => negb (c =? cp ".")) s = true.
Proof.
  rewrite !List.forallb_forall. intros H c Hc. specialize (H c Hc).
  unfold letter_class, is_lower, is_upper in H. cp_norm. lia.
Qed.

Lemma lang_Plus_inv p u : lang (Plus p) u -> u <> [] /\ forallb p u = true.
Proof. inversion 1; auto. Qed.

Lemma lang_Char_inv p u : lang (Char p) u -> exists c, u = [c] /\ p c = true.
Proof. inversion 1; eauto. Qed.

Lemma lang_Seq_inv r1 r2 w :
  lang (Seq r1 r2) w -> exists u v, w = u ++ v /\ lang r1 u /\ lang r2 v.
Proof. inversion 1; eauto. Qed.

(** The shape of the words of the group. *)
Lemma lang_version_group g :
  lang version_group g ->
  exists a b c,
    numeric a = true /\ numeric b = true /\ numeric c = true
    /\ (g = a ++ cp "." :: b ++ cp "." :: c
        \/ exists s, letters s = true /\ g = a ++ cp "." :: b ++ cp "." :: c ++ cp "." :: s).
Proof.
  unfold version_group. intros H.
  apply lang_Seq_inv in H as (a & g1 & -> & Ha & H).
  apply lang_Seq_inv in H as (d1 & g2 & -> & Hd1 & H).
  apply lang_Seq_inv in H as (b & g3 & -> & Hb & H).
  apply lang_Seq_inv in H as (d2 & g4 & -> & Hd2 & H).
  apply lang_Seq_inv in H as (c & g5 & -> & Hc & H).
  apply lang_Plus_inv in Ha, Hb, Hc.
  apply lang_Char_inv in Hd1 as (x1 & -> & Hx1), Hd2 as (x2 & -> & Hx2).
  apply ci_dot in Hx1, Hx2. subst x1 x2.
  exists a, b, c. rewrite !numeric_spec. repeat split; try tauto.
  inversion H as [| | | | r u Hu |]; subst.
  - right. apply lang_Seq_inv in Hu as (d3 & s & -> & Hd3 & Hs).
    apply lang_Char_inv in Hd3 as (x3 & -> & Hx3). apply ci_dot in Hx3. subst x3.
    apply lang_Plus_inv in Hs as [Hne Hs]. exists s. split; [| reflexivity].
    unfold letters. rewrite Hs, andb_true_r.
    now apply negb_true_iff, bool_decide_eq_false.
  - left. now rewrite app_nil_r.
Qed.

Lemma split_three a b c :
  numeric a = true -> numeric b = true -> numeric c = true ->
  split (cp ".") (a ++ cp "." :: b ++ cp "." :: c) = [a; b; c].
Proof.
  rewrite !numeric_spec. intros [_ Ha] [_ Hb] [_ Hc].
  rewrite !split_app by now apply digits_no_dot.
  now rewrite split_no_sep by now apply digits_no_dot.
Qed.

Lemma split_four a b c s :
  numeric a = true -> numeric b = true -> numeric c = true ->
  forallb (fun x => negb (x =? cp ".")) s = true ->
  split (cp ".") (a ++ cp "." :: b ++ cp "." :: c ++ cp "." :: s) = [a; b; c; s].
Proof.
  rewrite !numeric_spec. intros [_ Ha] [_ Hb] [_ Hc] Hs.
  rewrite !split_app by now apply digits_no_dot.
  now rewrite split_no_sep.
Qed.

Lemma lang_version_text g : lang version_group g -> version_text g = true.
Proof.
  intros H. apply lang_version_group in H
    as (a & b & c & Ha & Hb & Hc & [-> | (s & Hs & ->)]); unfold version_text.
  - rewrite split_three by assumption. now rewrite Ha, Hb, Hc.
  - rewrite split_four; [now rewrite Ha, Hb, Hc, Hs | assumption ..|].
    apply letter_no_dot. unfold letters in Hs. now apply andb_prop in Hs as [_ Hs].
Qed.

(** ** What the extraction returns *)

Lemma lang_literal_list (l : list ascii) k : forall u,
  lang (fold_right (fun a r => Seq (Char (ci a)) r) k l) u ->
  exists u1 u2, u = u1 ++ u2
    /\ Forall2 (fun a x => ci a x = true) l u1 /\ lang k u2.
Proof.
  induction l as [|a l IH]; simpl; intros u H.
  - exists [], u. auto.
  - apply lang_Seq_inv in H as (x & v & -> & Hx & Hv).
    apply lang_Char_inv in Hx as (c & -> & Hc).
    destruct (IH v Hv) as (u1 & u2 & -> & Hall & Hk).
    exists (c :: u1), u2. auto.
Qed.

Lemma lang_version_eq u :
  lang version_eq u ->
  exists kw q, u = kw ++ [q] /\ quote_class q = true
    /\ Forall2 (fun a x => ci a x = true) (list_ascii_of_string "version=") kw.
Proof.
  intros H. apply lang_literal_list in H as (kw & v & -> & Hkw & Hq).
  apply lang_Char_inv in Hq as (q & -> & Hq). eauto.
Qed.

Lemma lang_dunder_version_eq u :
  lang dunder_version_eq u ->
  exists kw q, u = kw ++ [q] /\ quote_class q = true.
Proof.
  intros H. apply lang_literal_list in H as (kw & v & -> & Hkw & H).
  apply lang_Seq_inv in H as (w1 & v1 & -> & _ & H).
  apply lang_Seq_inv in H as (e & v2 & -> & _ & H).
  apply lang_Seq_inv in H as (w2 & v3 & -> & _ & H).
  apply lang_Char_inv in H as (q & -> & Hq).
  exists (kw ++ w1 ++ e ++ w2), q. rewrite <- !app_assoc. auto.
Qed.

(** The text found by one of the two patterns stands between two quote
    characters and is a version. *)
Lemma search_found pre s g :
  (forall u, lang pre u -> exists kw q, u = kw ++ [q] /\ quote_class q = true) ->
  search pre version_group (Char quote_class) s = Some g ->
  version_text g = true
  /\ exists before q1 q2 after,
       s = before ++ q1 :: g ++ q2 :: after
       /\ quote_class q1 = true /\ quote_class q2 = true.
Proof.
  intros Hpre H. apply search_sound in H as (before & u & w & r & -> & Hu & Hg & Hw).
  split; [now apply lang_version_text |].
  apply Hpre in Hu as (kw & q1 & -> & Hq1).
  apply lang_Char_inv in Hw as (q2 & -> & Hq2).
  exists (before ++ kw), q1, q2, r. rewrite <- !app_assoc. auto.
Qed.

Lemma extract_inv (pre : regex) (text : string) (path : str) (fs : files) v :
  (content ← read_file path fs;
   match search pre version_group (Char quote_class) content with
   | Some version => Ok version
   | None => Raise (ValueError (Text text))
   end) = Ok v ->
  exists content, fs !! path = Some content
    /\ search pre version_group (Char quote_class) content = Some v.
Proof.
  unfold read_file. destruct (fs !! path) as [content|]; [| discriminate].
  rewrite bind_Ok.
  destruct (search pre version_group (Char quote_class) content) eqn:Hs;
    [| discriminate].
  intros [= ->]. exists content. auto.
Qed.

(** X13. Whatever one of the three extraction functions returns is a
    version of the form N.N.N or N.N.N.letters, taken from the file where
    it stands between two quote characters. *)
Theorem extracted_version_in_file (path : str) (fs : files) (v : str) :
  extract_version_from_setup path fs = Ok v
  \/ extract_version_from_readme path fs = Ok v
  \/ extract_version_from_init path fs = Ok v ->
  version_text v = true
  /\ exists content before q1 q2 after,
       fs !! path = Some content
       /\ content = before ++ q1 :: v ++ q2 :: after
       /\ quote_class q1 = true /\ quote_class q2 = true.
Proof.
  intros [H | [H | H]]; apply extract_inv in H as (content & Hfs & H);
    apply search_found in H as (Hv & before & q1 & q2 & after & Hc & Hq);
    try (split; [exact Hv |]; exists content, before, q1, q2, after; tauto).
  - intros u Hu. apply lang_version_eq in Hu as (kw & q & ? & ? & _). eauto.
  - intros u Hu. apply lang_version_eq in Hu as (kw & q & ? & ? & _). eauto.
  - apply lang_dunder_version_eq.
Qed.

Lemma extracted_version_in_file_witness :
  version_text (lit "1.2.3.B") = true
  /\ exists content before q1 q2 after,
       ({[ lit "README.md" := lit "see VERSION='1.2.3.B'" ]} : files) !! lit "README.md"
       = Some content
       /\ content = before ++ q1 :: lit "1.2.3.B" ++ q2 :: after
       /\ quote_class q1 = true /\ quote_class q2 = true.
Proof.
  apply (extracted_version_in_file (lit "README.md")
           {[ lit "README.md" := lit "see VERSION='1.2.3.B'" ]} (lit "1.2.3.B")).
  right. left. vm_compute. reflexivity.
Defined.

(** X14. A file without a quote character holds no version for the
    extraction functions: each raises its own "Version not found" error. *)
Theorem extraction_needs_quote (path content : str) (fs : files) :
  fs !! path = Some content ->
  Forall (fun c => quote_class c = false) content ->
  extract_version_from_setup path fs
  = Raise (ValueError (Text "Version not found in setup.py"))
  /\ extract_version_from_readme path fs
     = Raise (ValueError (Text "Version not found in README.md"))
  /\ extract_version_from_init path fs
     = Raise (ValueError (Text "Version not found in __init__.py")).
Proof.
  intros Hfs Hq.
  assert (Hnone : forall pre,
    (forall u, lang pre u -> exists kw q, u = kw ++ [q] /\ quote_class q = true) ->
    search pre version_group (Char quote_class) content = None).
  { intros pre Hpre.
    destruct (search pre version_group (Char quote_class) content) as [g|] eqn:Hs;
      [| reflexivity].
    exfalso. apply search_found in Hs as (_ & before & q1 & q2 & after & -> & Hq1 & _);
      [| exact Hpre].
    apply Forall_app in Hq as [_ Hq]. apply Forall_inv in Hq. congruence. }
  unfold extract_version_from_setup, extract_version_from_readme,
    extract_version_from_init, read_file. rewrite Hfs, !bind_Ok.
  assert (H1 : search version_eq version_group (Char quote_class) content = None).
  { apply Hnone. intros u Hu.
    apply lang_version_eq in Hu as (kw & q & ? & ? & _). eauto. }
  assert (H2 : search dunder_version_eq version_group (Char quote_class) content = None)
    by apply Hnone, lang_dunder_version_eq.
  rewrite H1, H2. auto.
Qed.

Lemma extraction_needs_quote_witness :
  extract_version_from_setup (lit "setup.py") {[ lit "setup.py" := lit "version=1.2.3" ]}
  = Raise (ValueError (Text "Version not found in setup.py"))
  /\ extract_version_from_readme (lit "setup.py") {[ lit "setup.py" := lit "version=1.2.3" ]}
     = Raise (ValueError (Text "Version not found in README.md"))
  /\ extract_version_from_init (lit "setup.py") {[ lit "setup.py" := lit "version=1.2.3" ]}
     = Raise (ValueError (Text "Version not found in __init__.py")).
Proof.
  apply (extraction_needs_quote (lit "setup.py") (lit "version=1.2.3")).
  - vm_compute. reflexivity.
  - repeat constructor.
Defined.

(** ** Extracted versions can be compared and updated *)

Lemma version_text_inv v :
  version_text v = true ->
  (exists a b c, split (cp ".") v = [a; b; c]
     /\ numeric a = true /\ numeric b = true /\ numeric c = true)
  \/ (exists a b c s, split (cp ".") v = [a; b; c; s]
     /\ numeric a = true /\ numeric b = true /\ numeric c = true
     /\ letters s = true).
Proof.
  unfold version_text.
  destruct (split (cp ".") v) as [|a [|b [|c [|s [|x r]]]]]; try discriminate.
  - intros H. apply andb_prop in H as [H Hc]. apply andb_prop in H as [Ha Hb].
    left. eauto 10.
  - intros H. apply andb_prop in H as [H Hs]. apply andb_prop in H as [H Hc].
    apply andb_prop in H as [Ha Hb]. right. eauto 10.
Qed.

Lemma letters_code_points s :
  letters s = true -> Forall (fun c => 0 <= c < 1114111) s.
Proof.
  unfold letters. intros H. apply andb_prop in H as [_ H].
  apply List.Forall_forall. intros c Hc. rewrite List.forallb_forall in H.
  specialize (H c Hc). unfold letter_class, is_lower, is_upper in H. cp_norm. lia.
Qed.

Lemma version_text_usable v :
  version_text v = true ->
  (exists k, version_key v = Ok k)
  /\ forall major minor patch,
       exists new_version, update_version v major minor patch true = Ok new_version.
Proof.
  intros H.
  assert (Hfin : forall major_ver minor_ver patch_ver suffix major minor patch,
    Forall (fun c => 0 <= c < 1114111) suffix ->
    parse_version v = Ok (major_ver, minor_ver, patch_ver, suffix) ->
    exists new_version, update_version v major minor patch true = Ok new_version).
  { intros M m p s major minor patch Hs Hp. unfold update_version.
    rewrite Hp, bind_Ok.
    destruct (bump major minor patch (M, m, p)) as [[M' m'] p'].
    destruct (increment_suffix_returns s Hs) as (s' & Hinc & _).
    unfold finish. rewrite Hinc, bind_Ok. eauto. }
  destruct (version_text_inv v H) as [(a & b & c & Hs & Ha & Hb & Hc)
                                    |(a & b & c & s & Hs & Ha & Hb & Hc & Hl)].
  - split.
    + unfold version_key. rewrite Hs. simpl take.
      rewrite unpack3_numeric by assumption. simpl. eauto.
    + intros major minor patch.
      eapply Hfin; [| apply (parse_version_three v a b c); assumption].
      repeat constructor; vm_compute; discriminate.
  - split.
    + unfold version_key. rewrite Hs. simpl take.
      rewrite unpack3_numeric by assumption. simpl. eauto.
    + intros major minor patch.
      eapply Hfin; [| apply (parse_version_four v a b c s); assumption].
      now apply letters_code_points.
Qed.

Lemma extracted_version_text (path : str) (fs : files) (v : str) :
  extract_version_from_setup path fs = Ok v
  \/ extract_version_from_readme path fs = Ok v
  \/ extract_version_from_init path fs = Ok v ->
  version_text v = true.
Proof.
  intros [H | [H | H]]; apply extract_inv in H as (content & _ & H);
    apply search_sound in H as (before & u & w & r & _ & _ & Hg & _);
    now apply lang_version_text.
Qed.

(** X15. A version returned by one of the extraction functions is always
    accepted by the rest of the program: [version_key] computes its key,
    [get_latest_version] returns it from the list that holds it alone,
    and [update_version] with [commit] set returns a new version. *)
Theorem extracted_version_usable (path : str) (fs : files) (v : str) :
  extract_version_from_setup path fs = Ok v
  \/ extract_version_from_readme path fs = Ok v
  \/ extract_version_from_init path fs = Ok v ->
  (exists k, version_key v = Ok k)
  /\ get_latest_version [v] = Ok v
  /\ forall major minor patch,
       exists new_version, update_version v major minor patch true = Ok new_version.
Proof.
  intros H. apply extracted_version_text in H.
  destruct (version_text_usable v H) as [[k Hk] Hu].
  split; [eauto |]. split; [| exact Hu].
  unfold get_latest_version, max_by. now rewrite Hk.
Qed.

Lemma extracted_version_usable_witness :
  (exists k, version_key (lit "01.2.3.Zz") = Ok k)
  /\ get_latest_version [lit "01.2.3.Zz"] = Ok (lit "01.2.3.Zz")
  /\ forall major minor patch,
       exists new_version,
         update_version (lit "01.2.3.Zz") major minor patch true = Ok new_version.
Proof.
  apply (extracted_version_usable (lit "pkg/__init__.py")
           {[ lit "pkg/__init__.py" := lit "__Version__ =  '01.2.3.Zz'" ]}).
  right. right. vm_compute. reflexivity.
Defined.

(** ** The extraction reads what the rewrites write *)

Lemma split_nonempty sep s : split sep s <> [].
Proof.
  destruct s as [|c s]; simpl; [discriminate |].
  destruct (c =? sep); [discriminate |]. destruct (split sep s); discriminate.
Qed.

Lemma split_cons_inv sep s : forall a rest,
  split sep s = a :: rest ->
  match rest with
  | [] => s = a
  | _ :: _ => exists s', s = a ++ sep :: s' /\ split sep s' = rest
  end.
Proof.
  induction s as [|c s IH]; simpl; intros a rest H.
  - injection H as <- <-. reflexivity.
  - destruct (Z.eqb_spec c sep) as [-> | Hc].
    + injection H as <- <-. pose proof (split_nonempty sep s).
      destruct (split sep s) eqn:E; [congruence |]. exists s. auto.
    + destruct (split sep s) as [|p ps] eqn:E; [now apply split_nonempty in E |].
      injection H as <- <-. specialize (IH p ps eq_refl).
      destruct ps; [now subst | destruct IH as (s' & -> & Hs'); eauto].
Qed.

Lemma many_head p u c r :
  forallb p u = true -> p c = false ->
  exists tl, many p (u ++ c :: r) = (c :: r) :: tl.
Proof.
  intros Hu Hc. induction u as [|x u IH]; simpl.
  - rewrite Hc. eauto.
  - simpl in Hu. apply andb_prop in Hu as [Hx Hu]. rewrite Hx.
    destruct (IH Hu) as [tl ->]. simpl. eauto.
Qed.

Lemma Plus_head p u c r :
  u <> [] -> forallb p u = true -> p c = false ->
  exists tl, matches (Plus p) (u ++ c :: r) = (c :: r) :: tl.
Proof.
  intros Hne Hu Hc. destruct u as [|x u]; [congruence |].
  simpl in *. apply andb_prop in Hu as [Hx Hu]. rewrite Hx.
  now apply many_head.
Qed.

Lemma Seq_head r1 r2 s s1 s2 tl1 tl2 :
  matches r1 s = s1 :: tl1 -> matches r2 s1 = s2 :: tl2 ->
  exists tl, matches (Seq r1 r2) s = s2 :: tl.
Proof. intros H1 H2. simpl. rewrite H1. simpl. rewrite H2. simpl. eauto. Qed.

Lemma dot_head r : matches (Char (ci ".")) (cp "." :: r) = [r].
Proof. reflexivity. Qed.

Lemma quote_not_class q :
  quote_class q = true ->
  is_digit q = false /\ letter_class q = false /\ ci "." q = false.
Proof.
  unfold quote_class, is_digit, letter_class, ci, is_lower, is_upper. cp_norm.
  simpl. lia.
Qed.

Lemma dot_not_digit : is_digit (cp ".") = false.
Proof. reflexivity. Qed.

(** Followed by a quote character, a version is matched by the group in
    full at the first attempt. *)
Lemma version_group_head v q after :
  version_text v = true -> quote_class q = true ->
  exists tl, matches version_group (v ++ q :: after) = (q :: after) :: tl.
Proof.
  intros Hv Hq. destruct (quote_not_class q Hq) as (Hqd & Hql & Hqdot).
  unfold version_group.
  destruct (version_text_inv v Hv) as [(a & b & c & Hs & Ha & Hb & Hc)
                                      |(a & b & c & s & Hs & Ha & Hb & Hc & Hl)];
    apply numeric_spec in Ha as [Hane Ha], Hb as [Hbne Hb], Hc as [Hcne Hc];
    apply split_cons_inv in Hs as (v1 & -> & Hs);
    apply split_cons_inv in Hs as (v2 & -> & Hs);
    apply split_cons_inv in Hs.
  - subst v2. rewrite <- !app_assoc. simpl app. rewrite <- !app_assoc. simpl app.
    destruct (Plus_head is_digit a (cp ".") (b ++ cp "." :: c ++ q :: after)
                Hane Ha dot_not_digit) as [t1 H1].
    destruct (Plus_head is_digit b (cp ".") (c ++ q :: after)
                Hbne Hb dot_not_digit) as [t2 H2].
    destruct (Plus_head is_digit c q after Hcne Hc Hqd) as [t3 H3].
    assert (H4 : matches (Opt (Seq (Char (ci ".")) (Plus letter_class))) (q :: after)
                 = [q :: after]).
    { simpl. rewrite Hqdot. reflexivity. }
    destruct (Seq_head _ _ _ _ _ _ _ H3 H4) as [t5 H5].
    destruct (Seq_head _ _ _ _ _ _ _ (dot_head _) H5) as [t6 H6].
    destruct (Seq_head _ _ _ _ _ _ _ H2 H6) as [t7 H7].
    destruct (Seq_head _ _ _ _ _ _ _ (dot_head _) H7) as [t8 H8].
    exact (Seq_head _ _ _ _ _ _ _ H1 H8).
  - destruct Hs as (v3 & -> & Hs). apply split_cons_inv in Hs. subst v3.
    unfold letters in Hl. apply andb_prop in Hl as [Hlne Hl].
    apply negb_true_iff, bool_decide_eq_false in Hlne.
    rewrite <- !app_assoc. simpl app. rewrite <- !app_assoc. simpl app.
    rewrite <- !app_assoc. simpl app.
    destruct (Plus_head is_digit a (cp ".")
                (b ++ cp "." :: c ++ cp "." :: s ++ q :: after)
                Hane Ha dot_not_digit) as [t1 H1].
    destruct (Plus_head is_digit b (cp ".") (c ++ cp "." :: s ++ q :: after)
                Hbne Hb dot_not_digit) as [t2 H2].
    destruct (Plus_head is_digit c (cp ".") (s ++ q :: after)
                Hcne Hc dot_not_digit) as [t3 H3].
    destruct (Plus_head letter_class s q after Hlne Hl Hql) as [t4 H4].
    destruct (Seq_head _ _ _ _ _ _ _ (dot_head _) H4) as [t5 H5].
    assert (H5' : exists tl, matches (Opt (Seq (Char (ci ".")) (Plus letter_class)))
                    (cp "." :: s ++ q :: after) = (q :: after) :: tl).
    { simpl matches at 1. simpl in H5. rewrite H5. simpl. eauto. }
    destruct H5' as [t5' H5'].
    destruct (Seq_head _ _ _ _ _ _ _ H3 H5') as [t6 H6].
    destruct (Seq_head _ _ _ _ _ _ _ (dot_head _) H6) as [t7 H7].
    destruct (Seq_head _ _ _ _ _ _ _ H2 H7) as [t8 H8].
    destruct (Seq_head _ _ _ _ _ _ _ (dot_head _) H8) as [t9 H9].
    exact (Seq_head _ _ _ _ _ _ _ H1 H9).
Qed.

Lemma match_group_head pre v q after text :
  matches pre text = [v ++ q :: after] ->
  version_text v = true -> quote_class q = true ->
  match_group pre version_group (Char quote_class) text = Some v.
Proof.
  intros Hpre Hv Hq. unfold match_group. rewrite Hpre.
  destruct (version_group_head v q after Hv Hq) as [tl Hg].
  cbn [flat_map]. rewrite Hg. cbn [flat_map matches]. rewrite Hq.
  cbn [map app hd_error]. f_equal.
  replace (length (v ++ q :: after) - length (q :: after))%nat with (length v)
    by (rewrite length_app; lia).
  apply take_app_length.
Qed.

Lemma match_setup_literal v after :
  version_text v = true ->
  match_group version_eq version_group (Char quote_class)
    (setup_literal (Some v) ++ after) = Some v.
Proof.
  intros Hv. apply (match_group_head _ v 39 after); [| assumption | reflexivity].
  unfold setup_literal. simpl fmt. rewrite <- !app_assoc. reflexivity.
Qed.

Lemma match_init_literal v after :
  version_text v = true ->
  match_group dunder_version_eq version_group (Char quote_class)
    (init_literal (Some v) ++ after) = Some v.
Proof.
  intros Hv. apply (match_group_head _ v 39 after); [| assumption | reflexivity].
  unfold init_literal. simpl fmt. rewrite <- !app_assoc. reflexivity.
Qed.

(** X16. The extraction reads back what the rewrites write: a file that
    begins with the single-quoted literal of a version gives that version,
    whatever follows the literal. *)
Theorem extraction_reads_literal (path v after : str) (fs : files) :
  version_text v = true ->
  (fs !! path = Some (setup_literal (Some v) ++ after) ->
   extract_version_from_setup path fs = Ok v
   /\ extract_version_from_readme path fs = Ok v)
  /\ (fs !! path = Some (init_literal (Some v) ++ after) ->
   extract_version_from_init path fs = Ok v).
Proof.
  intros Hv. split; intros Hfs.
  - unfold extract_version_from_setup, extract_version_from_readme, read_file.
    rewrite Hfs, !bind_Ok, (search_head _ _ _ _ v (match_setup_literal v after Hv)).
    auto.
  - unfold extract_version_from_init, read_file.
    rewrite Hfs, !bind_Ok, (search_head _ _ _ _ v (match_init_literal v after Hv)).
    auto.
Qed.

Lemma extraction_reads_literal_witness :
  extract_version_from_init (lit "__init__.py")
    {[ lit "__init__.py" := init_literal (Some (lit "2.0.0.b")) ++ lit " # version" ]}
  = Ok (lit "2.0.0.b").
Proof.
  destruct (extraction_reads_literal (lit "__init__.py") (lit "2.0.0.b") (lit " # version")
              {[ lit "__init__.py" := init_literal (Some (lit "2.0.0.b")) ++ lit " # version" ]})
    as [_ H].
  - reflexivity.
  - apply H. vm_compute. reflexivity.
Defined.

(** X17. A file in which the single-quoted literal of some version occurs
    is never reported as holding no version. *)
Theorem extraction_finds_literal (path v content : str) (fs : files) :
  version_text v = true -> fs !! path = Some content ->
  (occurs (setup_literal (Some v)) content ->
   exists found, extract_version_from_setup path fs = Ok found)
  /\ (occurs (init_literal (Some v)) content ->
   exists found, extract_version_from_init path fs = Ok found).
Proof.
  intros Hv Hfs. split; intros (i & after & Hi).
  - unfold extract_version_from_setup, read_file. rewrite Hfs, bind_Ok.
    destruct (search_complete version_eq version_group (Char quote_class) content i v)
      as [g ->]; [| eauto].
    rewrite Hi. now apply match_setup_literal.
  - unfold extract_version_from_init, read_file. rewrite Hfs, bind_Ok.
    destruct (search_complete dunder_version_eq version_group (Char quote_class) content i v)
      as [g ->]; [| eauto].
    rewrite Hi. now apply match_init_literal.
Qed.

Lemma extraction_finds_literal_witness :
  exists found,
    extract_version_from_setup (lit "setup.py")
      {[ lit "setup.py" := lit "setup(version='1.2.3')" ]} = Ok found.
Proof.
  destruct (extraction_finds_literal (lit "setup.py") (lit "1.2.3")
              (lit "setup(version='1.2.3')")
              {[ lit "setup.py" := lit "setup(version='1.2.3')" ]}) as [H _].
  - reflexivity.
  - vm_compute. reflexivity.
  - apply H. exists 6%nat, (lit ")"). reflexivity.
Defined.

(** ** Running the program *)

Lemma run_bind {A B} (m : prog A) (f : A -> prog B) (w : world) :
  (m ≫= f) w = match m w with
               | (Done a, w') => f a w'
               | (Failed e, w') => (Failed e, w')
               end.
Proof. reflexivity. Qed.

Lemma reading_run {A} (f : files -> result A) (w : world) :
  reading f w = match f (disk w) with
                | Ok a => (Done a, w)
                | Raise e => (Failed (Raised e), w)
                end.
Proof. reflexivity. Qed.

Lemma call_run {A} (r : result A) (w : world) :
  call r w = match r with
             | Ok a => (Done a, w)
             | Raise e => (Failed (Raised e), w)
             end.
Proof. reflexivity. Qed.

Lemma print_run text d i o :
  print text (World d i o) = (Done tt, World d i (o ++ [text ++ [10]])).
Proof. reflexivity. Qed.

Lemma input_run prompt d line rest o :
  input prompt (World d (line :: rest) o) = (Done line, World d rest (o ++ [prompt])).
Proof. reflexivity. Qed.

Lemma input_eof prompt d o :
  input prompt (World d [] o) = (Failed EOFError, World d [] (o ++ [prompt])).
Proof. reflexivity. Qed.

Lemma writing_run f d i o :
  writing f (World d i o) = match f d with
                            | Ok fs => (Done tt, World fs i o)
                            | Raise e => (Failed (Raised e), World d i o)
                            end.
Proof. reflexivity. Qed.

Lemma compare_versions_run a b d i o :
  exists o', compare_versions a b (World d i o) = (Done tt, World d i o').
Proof.
  unfold compare_versions. destruct (bool_decide (a = b)).
  - rewrite print_run. eauto.
  - rewrite run_bind, print_run. cbv beta iota.
    rewrite run_bind, print_run. cbv beta iota. rewrite print_run. eauto.
Qed.

Lemma get_latest_version_two a b :
  version_text a = true -> version_text b = true ->
  exists latest, get_latest_version [a; b] = Ok latest
    /\ version_text latest = true.
Proof.
  intros Ha Hb.
  destruct (version_text_usable a Ha) as [[ka Hka] _].
  destruct (version_text_usable b Hb) as [[kb Hkb] _].
  unfold get_latest_version, max_by. rewrite Hka, bind_Ok. simpl max_from.
  rewrite Hkb, bind_Ok. destruct (key_gt kb ka); eauto.
Qed.

Lemma version_text_no_commit v major minor patch :
  version_text v = true ->
  update_version v major minor patch false = Raise NoDirectiveError.
Proof.
  intros H.
  assert (Hp : exists M m p s, parse_version v = Ok (M, m, p, s)).
  { destruct (version_text_inv v H) as [(a & b & c & Hs & Ha & Hb & Hc)
                                      |(a & b & c & s & Hs & Ha & Hb & Hc & Hl)].
    - do 4 eexists. apply (parse_version_three v a b c); assumption.
    - do 4 eexists. apply (parse_version_four v a b c s); assumption. }
  destruct Hp as (M & m & p & s & Hp). unfold update_version. rewrite Hp, bind_Ok.
  destruct (bump major minor patch (M, m, p)) as [[a b] c]. reflexivity.
Qed.

Lemma paths_differ : lit "setup.py" <> lit "python_email_sender/__init__.py".
Proof. discriminate. Qed.

(** The runs of [main], by what the two files hold and how many lines the
    input has. *)
Lemma main_cases (w : world) :
  match extract_version_from_setup (lit "setup.py") (disk w) with
  | Raise e => fst (main w) = Failed (Raised e) /\ disk (snd (main w)) = disk w
  | Ok setup_version =>
    match extract_version_from_init (lit "python_email_sender/__init__.py") (disk w) with
    | Raise e => fst (main w) = Failed (Raised e) /\ disk (snd (main w)) = disk w
    | Ok init_version =>
      match stdin w with
      | major :: minor :: patch :: commit :: rest =>
        exists latest,
          get_latest_version [setup_version; init_version] = Ok latest
          /\ if lower_is_y commit then
               exists new_version fs1 fs2,
                 update_version latest (lower_is_y major) (lower_is_y minor)
                   (lower_is_y patch) true = Ok new_version
                 /\ update_version_in_setup (lit "setup.py")
                      (Some latest) (Some new_version) (disk w) = Ok fs1
                 /\ update_version_in_init (lit "python_email_sender/__init__.py")
                      (Some latest) (Some new_version) fs1 = Ok fs2
                 /\ fst (main w) = Done tt
                 /\ disk (snd (main w)) = fs2 /\ stdin (snd (main w)) = rest
             else
               fst (main w) = Failed (Raised NoDirectiveError)
               /\ disk (snd (main w)) = disk w
      | _ => fst (main w) = Failed EOFError /\ disk (snd (main w)) = disk w
      end
    end
  end.
Proof.
  destruct w as [d i o]. cbn [disk stdin].
  destruct (extract_version_from_setup (lit "setup.py") d) as [sv|e] eqn:Hs.
  2:{ unfold main. rewrite run_bind, reading_run. cbn [disk]. rewrite Hs. auto. }
  destruct (extract_version_from_init (lit "python_email_sender/__init__.py") d)
    as [iv|e] eqn:Hi.
  2:{ unfold main. rewrite run_bind, reading_run. cbn [disk]. rewrite Hs. cbv beta iota.
      rewrite run_bind, reading_run. cbn [disk]. rewrite Hi. auto. }
  pose proof (extracted_version_text _ _ _ (or_introl Hs)) as Hsv.
  pose proof (extracted_version_text _ _ _ (or_intror (or_intror Hi))) as Hiv.
  destruct (get_latest_version_two sv iv Hsv Hiv) as (latest & Hl & Hlt).
  destruct (compare_versions_run sv iv d i o) as [o1 Hc].
  assert (Hstart : forall k : str -> prog unit,
    (reading (extract_version_from_setup (lit "setup.py")) ≫= fun setup_version =>
     reading (extract_version_from_init (lit "python_email_sender/__init__.py"))
       ≫= fun init_version =>
     compare_versions setup_version init_version ≫= fun _ =>
     call (get_latest_version [setup_version; init_version]) ≫= fun latest_version =>
     print (lit "Latest version: " ++ latest_version) ≫= fun _ => k latest_version)
      (World d i o)
    = k latest (World d i (o1 ++ [(lit "Latest version: " ++ latest) ++ [10]]))).
  { intros k. rewrite run_bind, reading_run. cbn [disk]. rewrite Hs. cbv beta iota.
    rewrite run_bind, reading_run. cbn [disk]. rewrite Hi. cbv beta iota.
    rewrite run_bind, Hc. cbv beta iota.
    rewrite run_bind, call_run, Hl. cbv beta iota.
    rewrite run_bind, print_run. reflexivity. }
  unfold main. rewrite Hstart. clear Hstart.
  destruct i as [|a1 [|a2 [|a3 [|a4 rest]]]].
  - rewrite run_bind, input_eof. auto.
  - rewrite run_bind, input_run. cbv beta iota. rewrite run_bind, input_eof. auto.
  - rewrite run_bind, input_run. cbv beta iota. rewrite run_bind, input_run.
    cbv beta iota. rewrite run_bind, input_eof. auto.
  - rewrite run_bind, input_run. cbv beta iota. rewrite run_bind, input_run.
    cbv beta iota. rewrite run_bind, input_run. cbv beta iota.
    rewrite run_bind, input_eof. auto.
  - rewrite run_bind, input_run. cbv beta iota. rewrite run_bind, input_run.
    cbv beta iota. rewrite run_bind, input_run. cbv beta iota.
    rewrite run_bind, input_run. cbv beta iota.
    exists latest. split; [exact Hl |].
    destruct (lower_is_y a4).
    + destruct (proj2 (version_text_usable latest Hlt)
                  (lower_is_y a1) (lower_is_y a2) (lower_is_y a3)) as [new Hnew].
      apply extract_inv in Hs as (cs & Hcs & _).
      apply extract_inv in Hi as (ci & Hci & _).
      pose proof (update_version_in_setup_written (lit "setup.py") latest new cs d Hcs)
        as Hw1.
      set (fs1 := <[lit "setup.py" := replace (setup_literal (Some latest))
                     (setup_literal (Some new)) cs]> d) in *.
      assert (Hci1 : fs1 !! lit "python_email_sender/__init__.py" = Some ci).
      { subst fs1. rewrite lookup_insert_ne by apply paths_differ. exact Hci. }
      pose proof (update_version_in_init_written
                    (lit "python_email_sender/__init__.py") latest new ci fs1 Hci1) as Hw2.
      eexists new, fs1, _. split; [exact Hnew |]. split; [exact Hw1 |].
      split; [exact Hw2 |].
      rewrite run_bind, call_run, Hnew. cbv beta iota.
      rewrite run_bind, print_run. cbv beta iota.
      rewrite run_bind, writing_run, Hw1. cbv beta iota.
      rewrite writing_run, Hw2. auto.
    + rewrite run_bind, call_run, (version_text_no_commit latest _ _ _ Hlt). auto.
Qed.

(** ** The program as a whole *)

(** X18. When the two versions are found and the fourth answer is not y
    or Y, [main] stops with the error that asks for a directive, whatever
    the first three answers are, and no file is changed. *)
Theorem main_without_commit (w : world) (setup_version init_version : str)
    (major minor patch commit : str) (rest : list str) :
  extract_version_from_setup (lit "setup.py") (disk w) = Ok setup_version ->
  extract_version_from_init (lit "python_email_sender/__init__.py") (disk w)
    = Ok init_version ->
  stdin w = major :: minor :: patch :: commit :: rest ->
  lower_is_y commit = false ->
  fst (main w) = Failed (Raised NoDirectiveError) /\ disk (snd (main w)) = disk w.
Proof.
  intros Hs Hi Hin Hc. pose proof (main_cases w) as H.
  rewrite Hs, Hi, Hin in H. destruct H as (latest & _ & H). now rewrite Hc in H.
Qed.

Lemma main_without_commit_witness :
  let w := World (<[lit "setup.py" := lit "version='1.0.0'"]>
                   {[ lit "python_email_sender/__init__.py" := lit "__version__ = '1.0.0'" ]})
             [lit "y"; lit "n"; lit "n"; lit "n"] [] in
  fst (main w) = Failed (Raised NoDirectiveError) /\ disk (snd (main w)) = disk w.
Proof.
  apply (main_without_commit _ (lit "1.0.0") (lit "1.0.0")
           (lit "y") (lit "n") (lit "n") (lit "n") []);
    vm_compute; reflexivity.
Defined.



Lemma update_version_in_setup_inv (path a b : str) (fs fs' : files) :
  update_version_in_setup path (Some a) (Some b) fs = Ok fs' ->
  exists content, fs !! path = Some content
    /\ fs' = <[path := replace (setup_literal (Some a)) (setup_literal (Some b)) content]> fs.
Proof.
  intros H. destruct (fs !! path) as [content|] eqn:Hfs.
  - rewrite (update_version_in_setup_written _ _ _ _ _ Hfs) in H.
    injection H as <-. eauto.
  - unfold update_version_in_setup, read_file in H. rewrite Hfs in H. discriminate.
Qed.

Lemma update_version_in_init_inv (path a b : str) (fs fs' : files) :
  update_version_in_init path (Some a) (Some b) fs = Ok fs' ->
  exists content, fs !! path = Some content
    /\ fs' = <[path := replace (init_literal (Some a)) (init_literal (Some b)) content]> fs.
Proof.
  intros H. destruct (fs !! path) as [content|] eqn:Hfs.
  - rewrite (update_version_in_init_written _ _ _ _ _ Hfs) in H.
    injection H as <-. eauto.
  - unfold update_version_in_init, read_file in H. rewrite Hfs in H. discriminate.
Qed.

(** X20. [main] stops without having changed a file when the extraction
    fails on [setup.py], when it fails on [python_email_sender/__init__.py],
    and when fewer than four lines of input can be read; it then raises
    the error of the extraction, resp. [EOFError].  In no run does it
    change, create or remove a file other than these two. *)
Theorem main_files (w : world) :
  (forall e,
      extract_version_from_setup (lit "setup.py") (disk w) = Raise e ->
      fst (main w) = Failed (Raised e) /\ disk (snd (main w)) = disk w)
  /\ (forall setup_version e,
      extract_version_from_setup (lit "setup.py") (disk w) = Ok setup_version ->
      extract_version_from_init (lit "python_email_sender/__init__.py") (disk w)
        = Raise e ->
      fst (main w) = Failed (Raised e) /\ disk (snd (main w)) = disk w)
  /\ (forall setup_version init_version,
      extract_version_from_setup (lit "setup.py") (disk w) = Ok setup_version ->
      extract_version_from_init (lit "python_email_sender/__init__.py") (disk w)
        = Ok init_version ->
      (length (stdin w) < 4)%nat ->
      fst (main w) = Failed EOFError /\ disk (snd (main w)) = disk w)
  /\ forall path : str,
       path <> lit "setup.py" -> path <> lit "python_email_sender/__init__.py" ->
       disk (snd (main w)) !! path = disk w !! path.
Proof.
  pose proof (main_cases w) as H. split; [| split; [| split]].
  - intros e He. now rewrite He in H.
  - intros sv e Hs Hi. now rewrite Hs, Hi in H.
  - intros sv iv Hs Hi Hlen. rewrite Hs, Hi in H.
    destruct (stdin w) as [|a1 [|a2 [|a3 [|a4 rest]]]]; try exact H.
    simpl in Hlen. lia.
  - destruct (extract_version_from_setup (lit "setup.py") (disk w)) as [sv|e];
      [| destruct H as [_ ->]; auto].
    destruct (extract_version_from_init (lit "python_email_sender/__init__.py") (disk w))
      as [iv|e]; [| destruct H as [_ ->]; auto].
    destruct (stdin w) as [|a1 [|a2 [|a3 [|a4 rest]]]];
      try (destruct H as [_ ->]; auto; fail).
    destruct H as (latest & _ & H).
    destruct (lower_is_y a4); [| destruct H as [_ ->]; auto].
    destruct H as (new & fs1 & fs2 & _ & H1 & H2 & Hd & -> & _).
    intros path Hp1 Hp2.
    apply update_version_in_setup_inv in H1 as (c1 & _ & ->).
    apply update_version_in_init_inv in H2 as (c2 & _ & ->).
    rewrite !lookup_insert_ne by congruence. reflexivity.
Qed.

Lemma main_files_witness :
  let fs : files :=
    <[lit "README.md" := lit "version='0.9.0'"]>
      (<[lit "setup.py" := lit "setup(version='1.2.3.c')"]>
         {[ lit "python_email_sender/__init__.py" := lit "__version__ = '1.2.3.c'" ]}) in
  (fst (main (World fs [lit "y"; lit "n"] [])) = Failed EOFError
   /\ disk (snd (main (World fs [lit "y"; lit "n"] []))) = fs)
  /\ disk (snd (main (World fs [lit "n"; lit "n"; lit "y"; lit "y"] []))) !! lit "README.md"
     = Some (lit "version='0.9.0'").
Proof.
  intros fs. split.
  - destruct (main_files (World fs [lit "y"; lit "n"] [])) as (_ & _ & H & _).
    apply (H (lit "1.2.3.c") (lit "1.2.3.c")).
    + vm_compute. reflexivity.
    + vm_compute. reflexivity.
    + simpl. lia.
  - destruct (main_files (World fs [lit "n"; lit "n"; lit "y"; lit "y"] []))
      as (_ & _ & _ & H).
    rewrite H by discriminate. vm_compute. reflexivity.
Defined.

Lemma replaced_replace old new s r :
  old <> [] -> replaced old new s r -> r = replace old new s.
Proof.
  intros Hne Hr. exact (replaced_functional _ _ _ _ Hr _ (replace_replaced old new s Hne)).
Qed.

(** X21. After a run of [main] to its end, [setup.py] is its old text
    with the occurrences of [version='latest'] turned into
    [version='new'], and [python_email_sender/__init__.py] is its old
    text with the occurrences of [__version__ = 'latest'] turned into
    [__version__ = 'new'], where [latest] is the later of the two
    extracted versions and [new] is what [update_version] makes of it
    from the first three answers with [commit] set; a file in which the
    literal of [latest] occurs holds the literal of [new] afterwards.  The
    input left is what followed the four answers. *)
Theorem main_result (w : world) :
  fst (main w) = Done tt ->
  exists setup_version init_version latest new_version
         setup_text init_text setup_text' init_text'
         major minor patch commit rest,
    extract_version_from_setup (lit "setup.py") (disk w) = Ok setup_version
    /\ extract_version_from_init (lit "python_email_sender/__init__.py") (disk w)
       = Ok init_version
    /\ get_latest_version [setup_version; init_version] = Ok latest
    /\ stdin w = major :: minor :: patch :: commit :: rest
    /\ update_version latest (lower_is_y major) (lower_is_y minor) (lower_is_y patch) true
       = Ok new_version
    /\ disk w !! lit "setup.py" = Some setup_text
    /\ disk w !! lit "python_email_sender/__init__.py" = Some init_text
    /\ replaced (lit "version='" ++ latest ++ lit "'")
         (lit "version='" ++ new_version ++ lit "'") setup_text setup_text'
    /\ replaced (lit "__version__ = '" ++ latest ++ lit "'")
         (lit "__version__ = '" ++ new_version ++ lit "'") init_text init_text'
    /\ (occurs (lit "version='" ++ latest ++ lit "'") setup_text ->
        occurs (lit "version='" ++ new_version ++ lit "'") setup_text')
    /\ (occurs (lit "__version__ = '" ++ latest ++ lit "'") init_text ->
        occurs (lit "__version__ = '" ++ new_version ++ lit "'") init_text')
    /\ disk (snd (main w))
       = <[lit "python_email_sender/__init__.py" := init_text']>
           (<[lit "setup.py" := setup_text']> (disk w))
    /\ stdin (snd (main w)) = rest.
Proof.
  intros Hd. pose proof (main_cases w) as H.
  destruct (extract_version_from_setup (lit "setup.py") (disk w)) as [sv|e];
    [| destruct H; congruence].
  destruct (extract_version_from_init (lit "python_email_sender/__init__.py") (disk w))
    as [iv|e]; [| destruct H; congruence].
  destruct (stdin w) as [|a1 [|a2 [|a3 [|a4 rest]]]]; try (destruct H; congruence).
  destruct H as (latest & Hl & H).
  destruct (lower_is_y a4) eqn:Hy; [| destruct H; congruence].
  destruct H as (new & fs1 & fs2 & Hnew & H1 & H2 & _ & Hdisk & Hin).
  apply update_version_in_setup_inv in H1 as (c1 & Hc1 & ->).
  apply update_version_in_init_inv in H2 as (c2 & Hc2 & ->).
  rewrite lookup_insert_ne in Hc2 by apply paths_differ.
  change (setup_literal (Some latest)) with (lit "version='" ++ latest ++ lit "'") in *.
  change (setup_literal (Some new)) with (lit "version='" ++ new ++ lit "'") in *.
  change (init_literal (Some latest)) with (lit "__version__ = '" ++ latest ++ lit "'") in *.
  change (init_literal (Some new)) with (lit "__version__ = '" ++ new ++ lit "'") in *.
  assert (Hrs : replaced (lit "version='" ++ latest ++ lit "'")
                  (lit "version='" ++ new ++ lit "'") c1
                  (replace (lit "version='" ++ latest ++ lit "'")
                     (lit "version='" ++ new ++ lit "'") c1))
    by (apply replace_replaced; discriminate).
  assert (Hri : replaced (lit "__version__ = '" ++ latest ++ lit "'")
                  (lit "__version__ = '" ++ new ++ lit "'") c2
                  (replace (lit "__version__ = '" ++ latest ++ lit "'")
                     (lit "__version__ = '" ++ new ++ lit "'") c2))
    by (apply replace_replaced; discriminate).
  exists sv, iv, latest, new, c1, c2.
  eexists _, _. exists a1, a2, a3, a4, rest.
  split; [reflexivity |]. split; [reflexivity |]. split; [exact Hl |].
  split; [reflexivity |]. split; [exact Hnew |]. split; [exact Hc1 |].
  split; [exact Hc2 |]. split; [exact Hrs |]. split; [exact Hri |].
  split; [apply (replaced_occurs _ _ _ _ Hrs) |].
  split; [apply (replaced_occurs _ _ _ _ Hri) |].
  split; [exact Hdisk | exact Hin].
Qed.

Lemma main_result_witness :
  let w := World (<[lit "setup.py" := lit "setup(name='x', version='1.2.3.c')"]>
                   {[ lit "python_email_sender/__init__.py" := lit "__version__ = '1.2.3'" ]})
             [lit "n"; lit "Y"; lit "n"; lit "y"; lit "left"] [] in
  disk (snd (main w)) !! lit "setup.py" = Some (lit "setup(name='x', version='1.3.0.d')")
  /\ disk (snd (main w)) !! lit "python_email_sender/__init__.py"
     = Some (lit "__version__ = '1.2.3'")
  /\ stdin (snd (main w)) = [lit "left"].
Proof.
  intros w.
  destruct (main_result w) as (sv & iv & latest & new & c1 & c2 & c1' & c2'
    & a1 & a2 & a3 & a4 & rest & Hs & Hi & Hl & Hin & Hnew & Hc1 & Hc2
    & Hr1 & Hr2 & _ & _ & Hdisk & Hrest).
  { vm_compute. reflexivity. }
  vm_compute in Hs. injection Hs as <-.
  vm_compute in Hi. injection Hi as <-.
  vm_compute in Hl. injection Hl as <-.
  vm_compute in Hin. injection Hin as <- <- <- <- <-.
  vm_compute in Hnew. injection Hnew as <-.
  vm_compute in Hc1. injection Hc1 as <-.
  vm_compute in Hc2. injection Hc2 as <-.
  apply replaced_replace in Hr1; [| discriminate].
  apply replaced_replace in Hr2; [| discriminate].
  rewrite Hdisk, Hrest, Hr1, Hr2. vm_compute. repeat split; reflexivity.
Defined.

(** X22. A version whose suffix ends in the capital letter Z is accepted
    by the extraction, yet the version [update_version] makes of it has a
    suffix ending in the character after Z, which is no letter: no
    extraction function ever returns that version. *)
Theorem update_version_after_capital_z (v a b c s : str) (major minor patch : bool) :
  version_text v = true ->
  split (cp ".") v = [a; b; c; s ++ [cp "Z"]] ->
  exists new_version,
    update_version v major minor patch true = Ok new_version
    /\ version_text new_version = false
    /\ forall (path : str) (fs : files),
         extract_version_from_setup path fs <> Ok new_version
         /\ extract_version_from_readme path fs <> Ok new_version
         /\ extract_version_from_init path fs <> Ok new_version.
Proof.
  intros Hv Hs.
  assert (Hnum : numeric a = true /\ numeric b = true /\ numeric c = true
                 /\ letters (s ++ [cp "Z"]) = true).
  { unfold version_text in Hv. rewrite Hs in Hv.
    apply andb_prop in Hv as [Hv Hl]. apply andb_prop in Hv as [Hv Hc].
    apply andb_prop in Hv as [Ha Hb]. auto. }
  destruct Hnum as (Ha & Hb & Hc & Hl).
  pose proof (parse_version_four v a b c _ Hs Ha Hb Hc) as Hp.
  destruct (bump major minor patch (decimal a, decimal b, decimal c))
    as [[M' m'] p'] eqn:Hbump.
  assert (Hinc : increment_suffix (s ++ [cp "Z"]) = Ok (s ++ [cp "Z" + 1])).
  { rewrite (proj1 (increment_suffix_last s (cp "Z"))) by discriminate. reflexivity. }
  assert (Hsl : forallb letter_class s = true).
  { unfold letters in Hl. apply andb_prop in Hl as [_ Hl].
    rewrite forallb_app in Hl. now apply andb_prop in Hl as [Hl _]. }
  assert (Hnew : version_text (format_version M' m' p' (s ++ [cp "Z" + 1])) = false).
  { unfold version_text. rewrite split_format_version.
    - unfold letters. rewrite forallb_app. simpl forallb at 2.
      change (letter_class (cp "Z" + 1)) with false.
      now rewrite !andb_false_r.
    - rewrite forallb_app, (letter_no_dot s Hsl). reflexivity. }
  exists (format_version M' m' p' (s ++ [cp "Z" + 1])). split; [| split].
  - unfold update_version. rewrite Hp, bind_Ok, Hbump. unfold finish.
    now rewrite Hinc, bind_Ok.
  - exact Hnew.
  - intros path fs.
    pose proof (extracted_version_text path fs
                  (format_version M' m' p' (s ++ [cp "Z" + 1]))) as Hx.
    repeat split; intros H; rewrite Hx in Hnew by tauto; discriminate.
Qed.

Lemma update_version_after_capital_z_witness :
  exists new_version,
    update_version (lit "1.2.3.AZ") false false false true = Ok new_version
    /\ version_text new_version = false
    /\ forall (path : str) (fs : files),
         extract_version_from_setup path fs <> Ok new_version
         /\ extract_version_from_readme path fs <> Ok new_version
         /\ extract_version_from_init path fs <> Ok new_version.
Proof.
  apply (update_version_after_capital_z (lit "1.2.3.AZ")
           (lit "1") (lit "2") (lit "3") (lit "A")); reflexivity.
Defined.
